(** * Catalog generation (core/dbt/task/generate.py)

    A shallow embedding of the row-to-catalog reduction of dbt's
    [generate] task, and the properties of it that the design document
    states.

    Python dictionaries are finite maps ([gmap]); their iteration order
    (insertion order for [dict], hash order for [set]) is replaced by the
    order of [map_to_list] / [elements].  No statement below depends on
    it.  Text is taken to be ASCII: [str.lower] is modelled on the
    letters A..Z only.  Methods that mutate the catalog thread it
    explicitly, and return it also when they raise. *)

From Stdlib Require Import ZArith String Ascii List Lia.
From Stdlib Require Import Floats.SpecFloat.
From stdpp Require Import base option list gmap strings pretty fin_maps.

Local Open Scope string_scope.
Local Open Scope list_scope.
Set Warnings "-clear-no-such-hyp".

(** ** Exceptions and the two monads of the development *)

(** What the code can raise.  [KeyError k] is Python's, from [d[k]] on a
    dict without [k].  [CompilationException] is what [get_table] turns
    such a [KeyError] into; it carries the name of the missing key, and
    not the rendering of the row that its message ends with.
    [ValidationError] comes from hologram's [from_dict];
    [TypeError], [ValueError] and [OverflowError] from [int(...)].
    [AmbiguousCatalogMatch] is what [raise_ambiguous_catalog_match]
    raises; of its arguments the unique id is kept, the two rendered
    tables of the message are not. *)
Inductive exn : Type :=
  | KeyError (k : string)
  | CompilationException (missing : string)
  | ValidationError
  | TypeError
  | ValueError
  | OverflowError
  | AmbiguousCatalogMatch (unique_id : string).

Global Instance exn_eq_dec : EqDecision exn.
Proof. solve_decision. Defined.

(** The outcome of a call: a value, or a raised exception. *)
Inductive result (A : Type) : Type :=
  | Ok (a : A)
  | Raise (e : exn).
Arguments Ok {A} a.
Arguments Raise {A} e.

Global Instance result_eq_dec `{EqDecision A} : EqDecision (result A).
Proof. solve_decision. Defined.

Global Instance result_ret : MRet result := λ A a, Ok a.
Global Instance result_bind : MBind result := λ A B k r,
  match r with
  | Ok a => k a
  | Raise e => Raise e
  end.

(** [d[k]] on a dict. *)
Definition getitem {V} (d : gmap string V) (k : string) : result V :=
  match d !! k with
  | Some v => Ok v
  | None => Raise (KeyError k)
  end.

(** ** Text *)

Module Text.

(** [k.startswith(prefix)] *)
Fixpoint startswith (prefix k : string) : bool :=
  match prefix, k with
  | EmptyString, _ => true
  | String a p, String b k' => if decide (a = b) then startswith p k' else false
  | String _ _, EmptyString => false
  end.

(** [k[cut:]] *)
Fixpoint slice_from (cut : nat) (k : string) : string :=
  match cut, k with
  | O, _ => k
  | S n, String _ k' => slice_from n k'
  | S _, EmptyString => EmptyString
  end.

(** [k.split(':')[0]]: the text before the first colon, all of [k] when
    it has none. *)
Fixpoint before_colon (k : string) : string :=
  match k with
  | EmptyString => EmptyString
  | String a k' => if decide (a = ":"%char) then EmptyString
                   else String a (before_colon k')
  end.

Definition lower_char (a : ascii) : ascii :=
  let n := nat_of_ascii a in
  if (65 <=? n)%nat && (n <=? 90)%nat then ascii_of_nat (n + 32) else a.

(** [s.lower()] *)
Fixpoint lower (s : string) : string :=
  match s with
  | EmptyString => EmptyString
  | String a s' => String (lower_char a) (lower s')
  end.

(** ['{}:{}'.format(key, subkey)] *)
Definition colon_join (key subkey : string) : string :=
  key +:+ ":" +:+ subkey.

Lemma app_cons a p k : String a p +:+ k = String a (p +:+ k).
Proof. reflexivity. Qed.

Lemma app_nil k : "" +:+ k = k.
Proof. reflexivity. Qed.

Lemma startswith_app p k : startswith p (p +:+ k) = true.
Proof.
  induction p as [|a p IH]; [done|].
  rewrite app_cons. simpl. by rewrite decide_True.
Qed.

Lemma slice_from_app p k : slice_from (String.length p) (p +:+ k) = k.
Proof. induction p as [|a p IH]; [done|]. by rewrite app_cons. Qed.

Lemma startswith_slice p k :
  startswith p k = true → k = p +:+ slice_from (String.length p) k.
Proof.
  revert k. induction p as [|a p IH]; intros k Hk; simpl in *; [done|].
  destruct k as [|b k]; [done|]. case_decide; [|done]. subst b.
  rewrite app_cons. f_equal. by apply IH.
Qed.

Lemma startswith_iff p k :
  startswith p k = true ↔ ∃ k', k = p +:+ k'.
Proof.
  split.
  - intros Hk. eexists. by apply startswith_slice.
  - intros [k' ->]. apply startswith_app.
Qed.

Lemma before_colon_no_colon k :
  ∀ s1 s2, before_colon k ≠ s1 +:+ String ":"%char s2.
Proof.
  induction k as [|a k IH]; intros s1 s2; simpl.
  - by destruct s1.
  - case_decide as Ha.
    + by destruct s1.
    + destruct s1 as [|b s1]; rewrite ?app_cons, ?app_nil.
      * intros [= ? _]. done.
      * intros [= _ ?]. by eapply IH.
Qed.

Lemma before_colon_join key sub :
  (∀ s1 s2, key ≠ s1 +:+ String ":"%char s2) →
  before_colon (colon_join key sub) = key.
Proof.
  unfold colon_join. induction key as [|a key IH]; intros Hkey.
  - done.
  - rewrite app_cons. simpl. case_decide as Ha.
    + subst a. by destruct (Hkey "" key).
    + f_equal. apply IH. intros s1 s2 ->. by apply (Hkey (String a s1) s2).
Qed.

Lemma colon_join_inj key : Inj (=) (=) (colon_join key).
Proof. intros s1 s2. unfold colon_join. intros H. by simplify_eq. Qed.

End Text.

(** ** Primitive values *)

(** A Python float: its IEEE value, and the text [str] renders it as.
    The rendering is CPython's and is not computed here; a float is taken
    with whatever text it has, so a statement about all rows covers the
    real ones. *)
Record py_float : Type := PyFloat { fl_val : spec_float; fl_repr : string }.

(** [Primitive]: what a cell of a raw row holds. *)
Inductive Primitive : Type :=
  | PStr (s : string)
  | PBool (b : bool)
  | PInt (z : Z)
  | PFloat (f : py_float)
  | PNone.

Global Instance spec_float_eq_dec : EqDecision spec_float.
Proof. solve_decision. Defined.
Global Instance py_float_eq_dec : EqDecision py_float.
Proof. solve_decision. Defined.
Global Instance Primitive_eq_dec : EqDecision Primitive.
Proof. solve_decision. Defined.

Abbreviation PrimitiveDict := (gmap string Primitive).

(** [str(v)] *)
Definition py_str (v : Primitive) : string :=
  match v with
  | PStr s => s
  | PBool true => "True"
  | PBool false => "False"
  | PInt z => pretty z
  | PFloat f => fl_repr f
  | PNone => "None"
  end.

(** [int(s)] for text: surrounding white space, an optional sign, decimal
    digits, single underscores between digits. *)
Module IntLiteral.

Definition is_space (a : ascii) : bool :=
  let n := nat_of_ascii a in
  ((9 <=? n)%nat && (n <=? 13)%nat) || ((28 <=? n)%nat && (n <=? 32)%nat).

Fixpoint lstrip (s : string) : string :=
  match s with
  | EmptyString => EmptyString
  | String a s' => if is_space a then lstrip s' else s
  end.

Definition strip (s : string) : string :=
  String.rev (lstrip (String.rev (lstrip s))).

Definition digit (a : ascii) : option Z :=
  let n := nat_of_ascii a in
  if (48 <=? n)%nat && (n <=? 57)%nat then Some (Z.of_nat n - 48)%Z else None.

Fixpoint digits (acc : Z) (after_digit : bool) (s : string) : option Z :=
  match s with
  | EmptyString => if after_digit then Some acc else None
  | String a s' =>
      match digit a with
      | Some d => digits (10 * acc + d)%Z true s'
      | None =>
          if decide (a = "_"%char) then
            if after_digit then digits acc false s' else None
          else None
      end
  end.

Definition parse (s : string) : option Z :=
  match strip s with
  | String "+" s' => digits 0 false s'
  | String "-" s' => Z.opp <$> digits 0 false s'
  | s' => digits 0 false s'
  end.

End IntLiteral.

(** [int(x)] for a float: the value with its fraction cut off. *)
Definition float_trunc (f : spec_float) : result Z :=
  match f with
  | S754_zero _ => Ok 0%Z
  | S754_infinity _ => Raise OverflowError
  | S754_nan => Raise ValueError
  | S754_finite s m e =>
      let a := Z.shiftl (Z.pos m) e in
      Ok (if s then (- a)%Z else a)
  end.

(** [int(v)] *)
Definition py_int (v : Primitive) : result Z :=
  match v with
  | PInt z => Ok z
  | PBool b => Ok (if b then 1 else 0)%Z
  | PFloat f => float_trunc (fl_val f)
  | PStr s => match IntLiteral.parse s with
              | Some z => Ok z
              | None => Raise ValueError
              end
  | PNone => Raise TypeError
  end.

(** The value of a number as a fraction [num / den] with [0 < den]; no
    value for text, [None], infinities and NaN. *)
Definition numeric_value (v : Primitive) : option (Z * Z) :=
  match v with
  | PInt z => Some (z, 1%Z)
  | PBool b => Some ((if b then 1 else 0)%Z, 1%Z)
  | PFloat f =>
      match fl_val f with
      | S754_zero _ => Some (0%Z, 1%Z)
      | S754_finite s m e =>
          let sg (a : Z) := if s then (- a)%Z else a in
          if (0 <=? e)%Z then Some (sg (Z.pos m * 2 ^ e)%Z, 1%Z)
          else Some (sg (Z.pos m), (2 ^ (- e))%Z)
      | _ => None
      end
  | _ => None
  end.

(** ** get_stripped_prefix *)

Definition get_stripped_prefix (source : PrimitiveDict) (prefix : string)
  : PrimitiveDict :=
  let cut := String.length prefix in
  list_to_map
    (omap (λ kv : string * Primitive,
             if Text.startswith prefix kv.1
             then Some (Text.slice_from cut kv.1, kv.2) else None)
          (map_to_list source)).

Section get_stripped_prefix.
Variable source : PrimitiveDict.
Variable prefix : string.

Let pick (kv : string * Primitive) : option (string * Primitive) :=
  if Text.startswith prefix kv.1
  then Some (Text.slice_from (String.length prefix) kv.1, kv.2) else None.

Lemma pick_Some kv k v :
  pick kv = Some (k, v) ↔ kv = (prefix +:+ k, v).
Proof.
  unfold pick. destruct kv as [k0 v0]; simpl. split.
  - destruct (Text.startswith prefix k0) eqn:Hp; [|done].
    intros [= <- <-]. f_equal. by apply Text.startswith_slice.
  - intros [= -> ->]. by rewrite Text.startswith_app, Text.slice_from_app.
Qed.

Lemma get_stripped_prefix_lookup k :
  get_stripped_prefix source prefix !! k = source !! (prefix +:+ k).
Proof.
  unfold get_stripped_prefix. fold pick.
  destruct (source !! (prefix +:+ k)) as [v|] eqn:Hs.
  - apply elem_of_list_to_map_1'.
    + intros v' Hin. apply list_elem_of_omap in Hin as [kv [Hkv Hpick]].
      apply pick_Some in Hpick as ->.
      apply elem_of_map_to_list in Hkv. congruence.
    + apply list_elem_of_omap. exists (prefix +:+ k, v). split.
      * by apply elem_of_map_to_list.
      * by apply pick_Some.
  - apply not_elem_of_list_to_map_1. intros Hin.
    apply list_elem_of_fmap in Hin as [[k' v'] [Hk Hin]]. simpl in Hk. subst k'.
    apply list_elem_of_omap in Hin as [kv [Hkv Hpick]].
    apply pick_Some in Hpick as ->.
    apply elem_of_map_to_list in Hkv. congruence.
Qed.
End get_stripped_prefix.

(** ** The contracts of dbt.contracts.results *)

(** [for x in l: s = body(x, s)], leaving at the first exception. *)
Fixpoint for_each {A S} (body : A → S → result S) (l : list A) (s : S)
  : result S :=
  match l with
  | [] => Ok s
  | x :: l' => s' ← body x s; for_each body l' s'
  end.

Module StatsItem.

Record t : Type := mk {
  id : string;
  label : string;
  value : Primitive;
  description : string;
  include : bool;
}.

(** Modelled from the spec: the class [StatsItem] of
    dbt.contracts.results and its [from_dict] are not part of the
    sources at hand.  A StatItem has "id (string), label (string), value
    (primitive), description (string), include (boolean)", and a record
    is validated against that shape. *)
Definition from_dict (dct : PrimitiveDict) : result t :=
  match dct !! "id", dct !! "label", dct !! "value",
        dct !! "description", dct !! "include" with
  | Some (PStr i), Some (PStr l), Some v, Some (PStr d), Some (PBool b) =>
      Ok (mk i l v d b)
  | _, _, _, _, _ => Raise ValidationError
  end.

End StatsItem.

Abbreviation StatsDict := (gmap string StatsItem.t).

Module ColumnMetadata.

Record t : Type := mk {
  type : string;
  comment : option string;
  index : Z;
  name : string;
}.

(** Modelled from the spec: the class [ColumnMetadata] of
    dbt.contracts.results and its [from_dict] are not part of the
    sources at hand.  A ColumnMetadata has "name (string), type
    (string), numeric index, optional comment". *)
Definition from_dict (column_data : PrimitiveDict) : result t :=
  match column_data !! "type", column_data !! "index",
        column_data !! "name" with
  | Some (PStr ty), Some (PInt i), Some (PStr n) =>
      match column_data !! "comment" with
      | None | Some PNone => Ok (mk ty None i n)
      | Some (PStr c) => Ok (mk ty (Some c) i n)
      | Some _ => Raise ValidationError
      end
  | _, _, _ => Raise ValidationError
  end.

End ColumnMetadata.

(** [CatalogKey]: database name, schema name, table name. *)
Abbreviation CatalogKey := (string * string * string)%type.

Module TableMetadata.

Record t : Type := mk {
  database : Primitive;
  schema : Primitive;
  name : Primitive;
  fields : PrimitiveDict;
}.

(** Modelled from the spec: the class [TableMetadata] of
    dbt.contracts.results and its [from_dict] are not part of the
    sources at hand.  The metadata of a table are its "arbitrary
    table-level primitive fields", those of [extract(row, "table_")],
    among them the database, schema and name that identify it. *)
Definition from_dict (d : PrimitiveDict) : result t :=
  match d !! "database", d !! "schema", d !! "name" with
  | Some db, Some sch, Some n => Ok (mk db sch n d)
  | _, _, _ => Raise ValidationError
  end.

End TableMetadata.

Module CatalogTable.

Record t : Type := mk {
  metadata : TableMetadata.t;
  columns : gmap string ColumnMetadata.t;
  stats : StatsDict;
  unique_id : option string;
}.

(** Modelled from the spec: [CatalogTable.key] is not part of the
    sources at hand.  It is the "normalized key" of the entry, looked
    up in the index of the manifest: "database/schema/identifier all
    case-folded", of the stringified fields. *)
Definition key (table : t) : CatalogKey :=
  (Text.lower (py_str (TableMetadata.database (metadata table))),
   Text.lower (py_str (TableMetadata.schema (metadata table))),
   Text.lower (py_str (TableMetadata.name (metadata table)))).

(** [table.replace(unique_id=unique_id)] *)
Definition replace_unique_id (table : t) (unique_id : string) : t :=
  mk (metadata table) (columns table) (stats table) (Some unique_id).

(** [table.columns[name] = column] *)
Definition set_column (table : t) (column : ColumnMetadata.t) : t :=
  mk (metadata table)
     (<[ColumnMetadata.name column := column]> (columns table))
     (stats table) (unique_id table).

End CatalogTable.

Global Instance StatsItem_eq_dec : EqDecision StatsItem.t.
Proof. solve_decision. Defined.
Global Instance ColumnMetadata_eq_dec : EqDecision ColumnMetadata.t.
Proof. solve_decision. Defined.
Global Instance TableMetadata_eq_dec : EqDecision TableMetadata.t.
Proof. solve_decision. Defined.
Global Instance CatalogTable_eq_dec : EqDecision CatalogTable.t.
Proof. solve_decision. Defined.

(** ** format_stats *)

Definition subkeys : list string :=
  ["label"; "value"; "description"; "include"].

(** [{k.split(':')[0] for k in stats}] *)
Definition base_keys (stats : PrimitiveDict) : gset string :=
  set_map Text.before_colon (dom stats).

(** The inner loop: [dct = {'id': key}], then
    [dct[subkey] = stats['{}:{}'.format(key, subkey)]] for each subkey. *)
Definition stat_dct (stats : PrimitiveDict) (key : string)
  : result PrimitiveDict :=
  for_each
    (λ subkey dct,
       v ← getitem stats (Text.colon_join key subkey);
       mret (<[subkey := v]> dct))
    subkeys {["id" := PStr key]}.

(** The body of the outer loop, on the collector. *)
Definition collect_stat (stats : PrimitiveDict) (key : string)
    (stats_collector : StatsDict) : result StatsDict :=
  dct ← stat_dct stats key;
  match StatsItem.from_dict dct with
  | Raise ValidationError => Ok stats_collector
  | Raise e => Raise e
  | Ok stats_item =>
      if StatsItem.include stats_item
      then Ok (<[key := stats_item]> stats_collector)
      else Ok stats_collector
  end.

Definition has_stats (value : bool) : StatsItem.t :=
  StatsItem.mk "has_stats" "Has Stats?" (PBool value)
    "Indicates whether there are statistics for this table" false.

Definition format_stats (stats : PrimitiveDict) : result StatsDict :=
  stats_collector ← for_each (collect_stat stats) (elements (base_keys stats)) ∅;
  mret (<["has_stats" := has_stats (bool_decide (0 < size stats_collector))]>
          stats_collector).

(** ** The catalog *)

Definition build_catalog_table (data : PrimitiveDict) : result CatalogTable.t :=
  metadata ← TableMetadata.from_dict (get_stripped_prefix data "table_");
  stats ← format_stats (get_stripped_prefix data "stats:");
  mret (CatalogTable.mk metadata ∅ stats None).

Abbreviation Catalog := (gmap CatalogKey CatalogTable.t).

(** The key that [get_table] builds inside its [try]. *)
Definition catalog_key (data : PrimitiveDict) : result CatalogKey :=
  database ← getitem data "table_database";
  schema ← getitem data "table_schema";
  name ← getitem data "table_name";
  mret (py_str database, py_str schema, py_str name).

(** [Catalog.get_table].  The table returned is the object stored under
    the key; the key comes with it, so that the caller's mutation of the
    object is a mutation of the catalog. *)
Definition get_table (data : PrimitiveDict) (self : Catalog)
  : result (CatalogKey * CatalogTable.t) * Catalog :=
  match catalog_key data with
  | Raise (KeyError k) => (Raise (CompilationException k), self)
  | Raise e => (Raise e, self)
  | Ok key =>
      match self !! key with
      | Some table => (Ok (key, table), self)
      | None =>
          match build_catalog_table data with
          | Raise e => (Raise e, self)
          | Ok table => (Ok (key, table), <[key := table]> self)
          end
      end
  end.

(** What [add_column] computes between [get_table] and the assignment to
    [table.columns]. *)
Definition column_of (data : PrimitiveDict) : result ColumnMetadata.t :=
  let column_data := get_stripped_prefix data "column_" in
  index ← getitem column_data "index";
  index ← py_int index;
  ColumnMetadata.from_dict (<["index" := PInt index]> column_data).

(** [Catalog.add_column] *)
Definition add_column (data : PrimitiveDict) (self : Catalog)
  : result () * Catalog :=
  match get_table data self with
  | (Raise e, self) => (Raise e, self)
  | (Ok (key, table), self) =>
      match column_of data with
      | Raise e => (Raise e, self)
      | Ok column => (Ok (), <[key := CatalogTable.set_column table column]> self)
      end
  end.

(** The loop of [Catalog.__init__], from a given catalog. *)
Fixpoint add_columns (columns : list PrimitiveDict) (self : Catalog)
  : result () * Catalog :=
  match columns with
  | [] => (Ok (), self)
  | col :: columns' =>
      match add_column col self with
      | (Raise e, self) => (Raise e, self)
      | (Ok _, self) => add_columns columns' self
      end
  end.

(** [Catalog(columns)]: the constructor returns the catalog, or raises. *)
Definition Catalog_init (columns : list PrimitiveDict) : result Catalog :=
  match add_columns columns ∅ with
  | (Raise e, _) => Raise e
  | (Ok _, self) => Ok self
  end.

(** ** The manifest *)

(** What [mapping_key] reads of a node of the manifest. *)
Record CompileResultNode : Type := mkNode {
  database : string;
  schema : string;
  identifier : string;
}.

Global Instance CompileResultNode_eq_dec : EqDecision CompileResultNode.
Proof. solve_decision. Defined.

(** [manifest.nodes]: a dict from unique id to node. *)
Abbreviation Manifest := (gmap string CompileResultNode).

Definition mapping_key (node : CompileResultNode) : CatalogKey :=
  (Text.lower (database node), Text.lower (schema node),
   Text.lower (identifier node)).

Definition ident_map_add (ident_map : gmap CatalogKey (list string))
    (item : string * CompileResultNode) : gmap CatalogKey (list string) :=
  let key := mapping_key item.2 in
  let ident_map :=
    match ident_map !! key with
    | None => <[key := []]> ident_map
    | Some _ => ident_map
    end in
  <[key := (default [] (ident_map !! key) ++ [item.1])%list]> ident_map.

Definition get_unique_id_mapping (manifest : Manifest)
  : gmap CatalogKey (list string) :=
  foldl ident_map_add ∅ (map_to_list manifest).

(** The inner loop of [make_unique_id_map], for one table. *)
Definition add_unique_id (table : CatalogTable.t) (unique_id : string)
    (nodes : gmap string CatalogTable.t) : result (gmap string CatalogTable.t) :=
  match nodes !! unique_id with
  | Some _ => Raise (AmbiguousCatalogMatch unique_id)
  | None => Ok (<[unique_id := CatalogTable.replace_unique_id table unique_id]> nodes)
  end.

Definition add_table (manifest_mapping : gmap CatalogKey (list string))
    (table : CatalogTable.t) (nodes : gmap string CatalogTable.t)
  : result (gmap string CatalogTable.t) :=
  let unique_ids := default [] (manifest_mapping !! CatalogTable.key table) in
  for_each (add_unique_id table) unique_ids nodes.

(** [Catalog.make_unique_id_map] *)
Definition make_unique_id_map (self : Catalog) (manifest : Manifest)
  : result (gmap string CatalogTable.t) :=
  let manifest_mapping := get_unique_id_mapping manifest in
  for_each (add_table manifest_mapping) (map_to_list self).*2 ∅.

(** * Properties *)

(** ** Vocabulary of the statements *)

(** What a stat id parses to: its record, validated. *)
Definition parse_stat (stats : PrimitiveDict) (key : string)
  : result StatsItem.t :=
  dct ← stat_dct stats key; StatsItem.from_dict dct.

(** The stat of an id once the [include] filter is applied. *)
Definition shown_stat (stats : PrimitiveDict) (key : string)
  : option StatsItem.t :=
  match parse_stat stats key with
  | Ok item => if StatsItem.include item then Some item else None
  | Raise _ => None
  end.

(** Every stat id of the mapping has its four sub-keys. *)
Definition complete (stats : PrimitiveDict) : bool :=
  forallb
    (λ key, forallb (λ subkey, bool_decide (is_Some (stats !! Text.colon_join key subkey)))
                    subkeys)
    (elements (base_keys stats)).

(** The mapping without the keys of one stat id. *)
Definition without_id (key : string) (stats : PrimitiveDict) : PrimitiveDict :=
  filter (λ kv, Text.before_colon kv.1 ≠ key) stats.

(** ** format_stats *)

Section format_stats.
Variable stats : PrimitiveDict.

Lemma stat_dct_unfold key :
  stat_dct stats key =
    (l ← getitem stats (Text.colon_join key "label");
     v ← getitem stats (Text.colon_join key "value");
     d ← getitem stats (Text.colon_join key "description");
     i ← getitem stats (Text.colon_join key "include");
     Ok (<["include" := i]> (<["description" := d]> (<["value" := v]>
           (<["label" := l]> {["id" := PStr key]}))))).
Proof.
  unfold stat_dct, subkeys. simpl.
  destruct (getitem stats (Text.colon_join key "label")); simpl; [|done].
  destruct (getitem stats (Text.colon_join key "value")); simpl; [|done].
  destruct (getitem stats (Text.colon_join key "description")); simpl; [|done].
  destruct (getitem stats (Text.colon_join key "include")); simpl; done.
Qed.

(** The record of an id is built exactly when its sub-keys are there. *)
Lemma stat_dct_Ok key :
  (∀ subkey, subkey ∈ subkeys → is_Some (stats !! Text.colon_join key subkey)) →
  ∃ dct, stat_dct stats key = Ok dct.
Proof.
  intros Hall. rewrite stat_dct_unfold. unfold getitem.
  destruct (Hall "label") as [l ->]; [set_solver|].
  destruct (Hall "value") as [v ->]; [set_solver|].
  destruct (Hall "description") as [d ->]; [set_solver|].
  destruct (Hall "include") as [i ->]; [set_solver|].
  simpl. eauto.
Qed.

Lemma stat_dct_Ok_inv key dct :
  stat_dct stats key = Ok dct →
  ∀ subkey, subkey ∈ subkeys → is_Some (stats !! Text.colon_join key subkey).
Proof.
  rewrite stat_dct_unfold. unfold getitem.
  destruct (stats !! Text.colon_join key "label") eqn:Hl; simpl; [|done].
  destruct (stats !! Text.colon_join key "value") eqn:Hv; simpl; [|done].
  destruct (stats !! Text.colon_join key "description") eqn:Hd; simpl; [|done].
  destruct (stats !! Text.colon_join key "include") eqn:Hi; simpl; [|done].
  intros _ subkey Hsub. unfold subkeys in Hsub.
  repeat (apply elem_of_cons in Hsub as [->|Hsub]; [eauto|]).
  by apply elem_of_nil in Hsub.
Qed.

Lemma stat_dct_Raise key e :
  stat_dct stats key = Raise e →
  ∃ subkey, subkey ∈ subkeys ∧ stats !! Text.colon_join key subkey = None ∧
            e = KeyError (Text.colon_join key subkey).
Proof.
  rewrite stat_dct_unfold. unfold getitem.
  destruct (stats !! Text.colon_join key "label") eqn:Hl; simpl;
    [|intros [= <-]; exists "label"; split_and!; [set_solver|done..]].
  destruct (stats !! Text.colon_join key "value") eqn:Hv; simpl;
    [|intros [= <-]; exists "value"; split_and!; [set_solver|done..]].
  destruct (stats !! Text.colon_join key "description") eqn:Hd; simpl;
    [|intros [= <-]; exists "description"; split_and!; [set_solver|done..]].
  destruct (stats !! Text.colon_join key "include") eqn:Hi; simpl;
    [|intros [= <-]; exists "include"; split_and!; [set_solver|done..]].
  done.
Qed.

Lemma from_dict_Raise dct e :
  StatsItem.from_dict dct = Raise e → e = ValidationError.
Proof.
  unfold StatsItem.from_dict. intros H.
  repeat (match type of H with
          | context [match ?x with _ => _ end] => destruct x
          end; try done); congruence.
Qed.

Lemma parse_stat_id key item :
  parse_stat stats key = Ok item → StatsItem.id item = key.
Proof.
  unfold parse_stat. rewrite stat_dct_unfold.
  destruct (getitem stats (Text.colon_join key "label")); simpl; [|done].
  destruct (getitem stats (Text.colon_join key "value")); simpl; [|done].
  destruct (getitem stats (Text.colon_join key "description")); simpl; [|done].
  destruct (getitem stats (Text.colon_join key "include")); simpl; [|done].
  unfold StatsItem.from_dict.
  rewrite !lookup_insert_ne, lookup_singleton_eq by done.
  intros H.
  repeat (match type of H with
          | context [match ?x with _ => _ end] => destruct x
          end; try done).
  by injection H as <-.
Qed.

(** One turn of the loop, by what the id parses to. *)
Lemma collect_stat_eq key collector :
  collect_stat stats key collector =
    match stat_dct stats key with
    | Raise e => Raise e
    | Ok _ =>
        Ok (match shown_stat stats key with
            | Some item => <[key := item]> collector
            | None => collector
            end)
    end.
Proof.
  unfold collect_stat, shown_stat, parse_stat.
  destruct (stat_dct stats key) as [dct|e]; simpl; [|done].
  destruct (StatsItem.from_dict dct) as [item|e] eqn:Hfd; simpl.
  - by destruct (StatsItem.include item).
  - by rewrite (from_dict_Raise _ _ Hfd).
Qed.

Lemma for_each_collect_Ok l collector collector' :
  for_each (collect_stat stats) l collector = Ok collector' →
  Forall (λ key, ∃ dct, stat_dct stats key = Ok dct) l ∧
  ∀ j, collector' !! j =
         match (if decide (j ∈ l) then shown_stat stats j else None) with
         | Some item => Some item
         | None => collector !! j
         end.
Proof.
  revert collector. induction l as [|key l IH]; intros collector; simpl.
  - intros [= <-]. split; [constructor|]. done.
  - rewrite collect_stat_eq.
    destruct (stat_dct stats key) as [dct|e] eqn:Hdct; simpl; [|done].
    intros Hrest. apply IH in Hrest as [Hall Hlook]. split.
    { constructor; eauto. }
    intros j. rewrite Hlook. destruct (decide (j ∈ l)) as [Hj|Hj].
    + rewrite decide_True by set_solver.
      destruct (shown_stat stats j) as [item|] eqn:Hshown; [done|].
      destruct (decide (j = key)) as [->|Hne].
      * by rewrite Hshown.
      * destruct (shown_stat stats key); [by rewrite lookup_insert_ne|done].
    + destruct (decide (j = key)) as [->|Hne].
      * rewrite decide_True by set_solver.
        destruct (shown_stat stats key) as [item|]; [by rewrite lookup_insert_eq|done].
      * rewrite decide_False by set_solver.
        destruct (shown_stat stats key); [by rewrite lookup_insert_ne|done].
Qed.

Lemma for_each_collect_complete l collector :
  Forall (λ key, ∃ dct, stat_dct stats key = Ok dct) l →
  ∃ collector', for_each (collect_stat stats) l collector = Ok collector'.
Proof.
  intros Hall. revert collector.
  induction Hall as [|key l [dct Hdct] _ IH]; intros collector; simpl; [eauto|].
  rewrite collect_stat_eq, Hdct. simpl. apply IH.
Qed.

Lemma for_each_collect_Raise l collector e :
  for_each (collect_stat stats) l collector = Raise e →
  ∃ key subkey, key ∈ l ∧ subkey ∈ subkeys ∧
    stats !! Text.colon_join key subkey = None ∧
    e = KeyError (Text.colon_join key subkey).
Proof.
  revert collector. induction l as [|key l IH]; intros collector; simpl; [done|].
  rewrite collect_stat_eq.
  destruct (stat_dct stats key) as [dct|e'] eqn:Hdct; simpl.
  - intros Hrest. apply IH in Hrest as (k & s & ? & ? & ? & ?).
    exists k, s. split_and!; [set_solver|done..].
  - intros [= <-]. apply stat_dct_Raise in Hdct as (s & ? & ? & ?).
    exists key, s. split_and!; [set_solver|done..].
Qed.

Lemma complete_spec :
  complete stats = true ↔
  ∀ key subkey, key ∈ base_keys stats → subkey ∈ subkeys →
                is_Some (stats !! Text.colon_join key subkey).
Proof.
  unfold complete. rewrite forallb_forall. split.
  - intros H key subkey Hkey Hsub.
    specialize (H key). rewrite forallb_forall in H.
    eapply bool_decide_eq_true_1, H.
    + apply list_elem_of_In, elem_of_elements, Hkey.
    + by apply list_elem_of_In.
  - intros H key Hkey. apply forallb_forall. intros subkey Hsub.
    apply bool_decide_eq_true_2, H.
    + by apply elem_of_elements, list_elem_of_In.
    + by apply list_elem_of_In.
Qed.

(** [format_stats] returns exactly on the complete mappings, and then
    holds, besides [has_stats], the stats that are shown. *)
Lemma format_stats_Ok r :
  format_stats stats = Ok r →
  complete stats = true ∧
  ∃ collector,
    (∀ j, collector !! j =
            if decide (j ∈ base_keys stats) then shown_stat stats j else None) ∧
    r = <["has_stats" := has_stats (bool_decide (0 < size collector))]> collector.
Proof.
  unfold format_stats.
  destruct (for_each _ _ _) as [collector|e] eqn:Hloop; simpl; [|done].
  intros [= <-]. apply for_each_collect_Ok in Hloop as [Hall Hlook]. split.
  - apply complete_spec. intros key subkey Hkey Hsub.
    rewrite Forall_forall in Hall.
    destruct (Hall key) as [dct Hdct]; [by apply elem_of_elements|].
    by eapply stat_dct_Ok_inv.
  - exists collector. split; [|done]. intros j. rewrite Hlook.
    destruct (decide (j ∈ elements (base_keys stats))) as [Hj|Hj].
    + rewrite decide_True by by apply elem_of_elements.
      by destruct (shown_stat stats j).
    + rewrite decide_False by by rewrite <-elem_of_elements.
      by rewrite lookup_empty.
Qed.

Lemma format_stats_complete :
  complete stats = true → ∃ r, format_stats stats = Ok r.
Proof.
  rewrite complete_spec. intros Hc. unfold format_stats.
  destruct (for_each_collect_complete (elements (base_keys stats)) ∅)
    as [collector ->]; simpl; [|eauto].
  apply Forall_forall. intros key Hkey. apply stat_dct_Ok.
  intros subkey Hsub. apply Hc; [|done]. by apply elem_of_elements.
Qed.

Lemma format_stats_Raise e :
  format_stats stats = Raise e →
  ∃ key subkey, key ∈ base_keys stats ∧ subkey ∈ subkeys ∧
    stats !! Text.colon_join key subkey = None ∧
    e = KeyError (Text.colon_join key subkey).
Proof.
  unfold format_stats.
  destruct (for_each _ _ _) as [collector|e'] eqn:Hloop; simpl; [done|].
  intros [= <-]. apply for_each_collect_Raise in Hloop as (k & s & Hk & ? & ? & ?).
  exists k, s. split_and!; [by apply elem_of_elements|done..].
Qed.

End format_stats.

Section without_id.
Variable stats : PrimitiveDict.
Variable key : string.

Lemma elem_of_base_keys (m : PrimitiveDict) j :
  j ∈ base_keys m ↔ ∃ k, j = Text.before_colon k ∧ is_Some (m !! k).
Proof.
  unfold base_keys. rewrite elem_of_map.
  split; intros (k & ? & Hk); exists k; (split; [done|]); by apply elem_of_dom.
Qed.

Lemma base_keys_no_colon (m : PrimitiveDict) j :
  j ∈ base_keys m → ∀ s1 s2, j ≠ s1 +:+ String ":"%char s2.
Proof.
  intros (k & -> & _)%elem_of_base_keys. apply Text.before_colon_no_colon.
Qed.

Lemma without_id_lookup k :
  without_id key stats !! k =
    if decide (Text.before_colon k = key) then None else stats !! k.
Proof.
  unfold without_id. rewrite map_lookup_filter.
  destruct (stats !! k) as [v|]; simpl; [|by case_decide].
  case_decide as Hk; simpl.
  - by rewrite option_guard_False by (simpl; auto).
  - by rewrite option_guard_True by done.
Qed.

Lemma without_id_base_keys j :
  j ∈ base_keys (without_id key stats) ↔ j ∈ base_keys stats ∧ j ≠ key.
Proof.
  rewrite !elem_of_base_keys. split.
  - intros (k & -> & Hk). rewrite without_id_lookup in Hk.
    case_decide; [by destruct Hk|]. eauto.
  - intros [(k & -> & Hk) Hne]. exists k. split; [done|].
    rewrite without_id_lookup. by rewrite decide_False.
Qed.

Lemma without_id_lookup_other j subkey :
  j ∈ base_keys stats → j ≠ key →
  without_id key stats !! Text.colon_join j subkey =
    stats !! Text.colon_join j subkey.
Proof.
  intros Hj Hne. rewrite without_id_lookup.
  rewrite Text.before_colon_join by by eapply base_keys_no_colon.
  by rewrite decide_False.
Qed.

Lemma without_id_stat_dct j :
  j ∈ base_keys stats → j ≠ key →
  stat_dct (without_id key stats) j = stat_dct stats j.
Proof.
  intros Hj Hne. rewrite !stat_dct_unfold. unfold getitem.
  by rewrite !without_id_lookup_other.
Qed.

Lemma without_id_shown_stat j :
  j ∈ base_keys stats → j ≠ key →
  shown_stat (without_id key stats) j = shown_stat stats j.
Proof.
  intros Hj Hne. unfold shown_stat, parse_stat.
  by rewrite without_id_stat_dct.
Qed.

Lemma without_id_complete :
  complete stats = true → complete (without_id key stats) = true.
Proof.
  rewrite !complete_spec. intros Hc j subkey [Hj Hne]%without_id_base_keys Hsub.
  rewrite without_id_lookup_other by done. by apply Hc.
Qed.
End without_id.

(** C1 (as amended): on a mapping in which every stat id has its four
    sub-keys, [format_stats] returns, and a stat id whose record fails
    validation is absent from the result, which is the very result obtained
    from the mapping without the keys of that id; on a mapping in which a
    stat id lacks a sub-key, [format_stats] raises the [KeyError] of the
    lookup of such a sub-key. *)
Theorem format_stats_invalid_dropped_missing_raised (stats : PrimitiveDict) :
  (complete stats = true →
   ∃ r, format_stats stats = Ok r ∧
        ∀ key, parse_stat stats key = Raise ValidationError →
               (key ≠ "has_stats" → r !! key = None) ∧
               format_stats (without_id key stats) = Ok r) ∧
  (complete stats = false →
   ∃ key subkey, key ∈ base_keys stats ∧ subkey ∈ subkeys ∧
     stats !! Text.colon_join key subkey = None ∧
     format_stats stats = Raise (KeyError (Text.colon_join key subkey))).
Proof.
  split.
  - intros Hc. destruct (format_stats_complete stats Hc) as [r Hr].
    exists r. split; [done|]. intros key Hkey.
    pose proof (format_stats_Ok _ _ Hr) as (_ & collector & Hlook & ->).
    assert (Hshown : shown_stat stats key = None)
      by (unfold shown_stat; by rewrite Hkey).
    split.
    + intros Hne. rewrite lookup_insert_ne by done. rewrite Hlook, Hshown.
      by destruct (decide _).
    + destruct (format_stats_complete _ (without_id_complete stats key Hc))
        as [r' Hr'].
      pose proof (format_stats_Ok _ _ Hr') as (_ & collector' & Hlook' & ->).
      rewrite Hr'. f_equal.
      assert (collector' = collector) as ->; [|done].
      apply map_eq. intros j. rewrite Hlook, Hlook'.
      destruct (decide (j = key)) as [->|Hne].
      * rewrite decide_False by (rewrite without_id_base_keys; tauto).
        rewrite Hshown. by destruct (decide _).
      * destruct (decide (j ∈ base_keys stats)) as [Hj|Hj].
        -- rewrite decide_True by (by apply without_id_base_keys).
           by apply without_id_shown_stat.
        -- by rewrite decide_False by (rewrite without_id_base_keys; tauto).
  - intros Hc. destruct (format_stats stats) as [r|e] eqn:Hr.
    + apply format_stats_Ok in Hr as [Hc' _]. congruence.
    + apply format_stats_Raise in Hr as (key & subkey & ? & ? & ? & ->).
      by exists key, subkey.
Qed.

(** A result of [format_stats] has the entry [has_stats], whose id is
    ['has_stats'], whose [include] is false, and whose value is the boolean
    that is true exactly when some stat id of the mapping parses to a stat
    with [include] true; no other entry has the id ['has_stats']. *)
Lemma format_stats_has_stats (stats : PrimitiveDict) (r : StatsDict) :
  format_stats stats = Ok r →
  ∃ (b : bool) (item : StatsItem.t),
    r !! "has_stats" = Some item ∧
    StatsItem.id item = "has_stats" ∧
    StatsItem.include item = false ∧
    StatsItem.value item = PBool b ∧
    (b = true ↔ ∃ key stat, key ∈ base_keys stats ∧
                            parse_stat stats key = Ok stat ∧
                            StatsItem.include stat = true) ∧
    (∀ k item', r !! k = Some item' →
                StatsItem.id item' = "has_stats" → k = "has_stats").
Proof.
  intros Hr. apply format_stats_Ok in Hr as (_ & collector & Hlook & ->).
  exists (bool_decide (0 < size collector)), (has_stats (bool_decide (0 < size collector))).
  split_and!; try done.
  - by rewrite lookup_insert_eq.
  - rewrite bool_decide_eq_true. split.
    + intros Hsize.
      destruct (map_choose collector) as (j & stat & Hj).
      { apply map_size_non_empty_iff. lia. }
      rewrite Hlook in Hj. case_decide as Hin; [|done].
      unfold shown_stat in Hj.
      destruct (parse_stat stats j) as [stat'|] eqn:Hparse; [|done].
      destruct (StatsItem.include stat') eqn:Hinc; [|done].
      injection Hj as ->. by exists j, stat.
    + intros (j & stat & Hin & Hparse & Hinc).
      assert (collector !! j = Some stat) as Hj.
      { rewrite Hlook, decide_True by done. unfold shown_stat.
        by rewrite Hparse, Hinc. }
      assert (size collector ≠ 0); [|lia].
      apply map_size_non_empty_iff. intros ->. by rewrite lookup_empty in Hj.
  - intros k item' Hk Hid.
    destruct (decide (k = "has_stats")) as [->|Hne]; [done|].
    rewrite lookup_insert_ne in Hk by done.
    rewrite Hlook in Hk. case_decide; [|done]. unfold shown_stat in Hk.
    destruct (parse_stat stats k) as [stat'|] eqn:Hparse; [|done].
    destruct (StatsItem.include stat'); [|done]. injection Hk as ->.
    apply parse_stat_id in Hparse. congruence.
Qed.

(** C4 (as amended): on a mapping in which every stat id has its four
    sub-keys, [format_stats] returns, and its result has the entry
    [has_stats], whose id is ['has_stats'], whose [include] is false, and
    whose value is the boolean that is true exactly when some stat id of
    the mapping parses to a stat with [include] true; no other entry has
    the id ['has_stats'].  (On the other mappings [format_stats] raises,
    and there is no result.) *)
Theorem format_stats_complete_has_stats (stats : PrimitiveDict) :
  complete stats = true →
  ∃ (r : StatsDict) (b : bool) (item : StatsItem.t),
    format_stats stats = Ok r ∧
    r !! "has_stats" = Some item ∧
    StatsItem.id item = "has_stats" ∧
    StatsItem.include item = false ∧
    StatsItem.value item = PBool b ∧
    (b = true ↔ ∃ key stat, key ∈ base_keys stats ∧
                            parse_stat stats key = Ok stat ∧
                            StatsItem.include stat = true) ∧
    (∀ k item', r !! k = Some item' →
                StatsItem.id item' = "has_stats" → k = "has_stats").
Proof.
  intros Hc. destruct (format_stats_complete stats Hc) as [r Hr].
  destruct (format_stats_has_stats stats r Hr) as (b & item & Hitem).
  by exists r, b, item.
Qed.

(** ** The catalog: one row *)

Definition identity_fields : list string :=
  ["table_database"; "table_schema"; "table_name"].

Section one_row.
Variable data : PrimitiveDict.

Lemma catalog_key_Ok key :
  catalog_key data = Ok key ↔
  ∃ db sch nm, data !! "table_database" = Some db ∧
               data !! "table_schema" = Some sch ∧
               data !! "table_name" = Some nm ∧
               key = (py_str db, py_str sch, py_str nm).
Proof.
  unfold catalog_key, getitem. split.
  - destruct (data !! "table_database") as [db|]; simpl; [|done].
    destruct (data !! "table_schema") as [sch|]; simpl; [|done].
    destruct (data !! "table_name") as [nm|]; simpl; [|done].
    intros [= <-]. by exists db, sch, nm.
  - intros (db & sch & nm & -> & -> & -> & ->). done.
Qed.

Lemma catalog_key_Raise e :
  catalog_key data = Raise e ↔
  ∃ field, e = KeyError field ∧ data !! field = None ∧
    (field = "table_database" ∨
     field = "table_schema" ∧ is_Some (data !! "table_database") ∨
     field = "table_name" ∧ is_Some (data !! "table_database") ∧
       is_Some (data !! "table_schema")).
Proof.
  unfold catalog_key, getitem. split.
  - destruct (data !! "table_database") as [db|] eqn:Hdb; simpl;
      [|intros [= <-]; exists "table_database"; auto].
    destruct (data !! "table_schema") as [sch|] eqn:Hsch; simpl;
      [|intros [= <-]; exists "table_schema"; eauto 6].
    destruct (data !! "table_name") as [nm|] eqn:Hnm; simpl;
      [done|intros [= <-]; exists "table_name"; eauto 8].
  - intros (field & -> & Hnone & [->|[[-> [db Hdb]]|(-> & [db Hdb] & [sch Hsch])]]).
    + by rewrite Hnone.
    + by rewrite Hdb, Hnone.
    + by rewrite Hdb, Hsch, Hnone.
Qed.

Lemma get_table_found self key table :
  catalog_key data = Ok key → self !! key = Some table →
  get_table data self = (Ok (key, table), self).
Proof. unfold get_table. by intros -> ->. Qed.

Lemma get_table_new self key :
  catalog_key data = Ok key → self !! key = None →
  get_table data self =
    match build_catalog_table data with
    | Raise e => (Raise e, self)
    | Ok table => (Ok (key, table), <[key := table]> self)
    end.
Proof. unfold get_table. by intros -> ->. Qed.

Lemma get_table_Ok self self' key table :
  get_table data self = (Ok (key, table), self') →
  catalog_key data = Ok key ∧ self' !! key = Some table ∧
  (self !! key = Some table ∧ self' = self ∨
   self !! key = None ∧ build_catalog_table data = Ok table ∧
     self' = <[key := table]> self).
Proof.
  unfold get_table.
  destruct (catalog_key data) as [key'|e] eqn:Hkey; [|by destruct e].
  destruct (self !! key') as [table'|] eqn:Hself.
  - intros [= -> -> <-]. auto.
  - destruct (build_catalog_table data) as [table'|e] eqn:Hbuild; [|done].
    intros [= -> -> <-]. rewrite lookup_insert_eq. auto 6.
Qed.

(** A row that is added lands in the entry under its [catalog_key]; the
    entry is the one found there, or else the one built from the row. *)
Lemma add_column_Ok self self' :
  add_column data self = (Ok (), self') →
  ∃ key table column,
    catalog_key data = Ok key ∧ column_of data = Ok column ∧
    (self !! key = Some table ∨
     self !! key = None ∧ build_catalog_table data = Ok table) ∧
    self' = <[key := CatalogTable.set_column table column]> self.
Proof.
  unfold add_column.
  destruct (get_table data self) as [[[key table]|e] self1] eqn:Hget; [|done].
  destruct (column_of data) as [column|e] eqn:Hcol; [|done].
  intros [= <-]. apply get_table_Ok in Hget as (Hkey & _ & Hcases).
  exists key, table, column. split_and!; [done..| |].
  - destruct Hcases as [[? _]|(? & ? & _)]; auto.
  - destruct Hcases as [[_ ->]|(_ & _ & ->)]; [done|].
    by rewrite insert_insert_eq.
Qed.

Lemma add_column_found self key table column :
  catalog_key data = Ok key → self !! key = Some table →
  column_of data = Ok column →
  add_column data self =
    (Ok (), <[key := CatalogTable.set_column table column]> self).
Proof.
  intros Hkey Hself Hcol. unfold add_column.
  by rewrite (get_table_found _ _ _ Hkey Hself), Hcol.
Qed.

End one_row.

Lemma set_column_twice table column :
  CatalogTable.set_column (CatalogTable.set_column table column) column =
  CatalogTable.set_column table column.
Proof.
  unfold CatalogTable.set_column. simpl. by rewrite insert_insert_eq.
Qed.

(** Adding a row that has just been added changes nothing. *)
Lemma add_column_again data self self' :
  add_column data self = (Ok (), self') →
  add_column data self' = (Ok (), self').
Proof.
  intros (key & table & column & Hkey & Hcol & _ & ->)%add_column_Ok.
  rewrite (add_column_found data _ key (CatalogTable.set_column table column) column);
    [|done|by rewrite lookup_insert_eq|done].
  by rewrite set_column_twice, insert_insert_eq.
Qed.

(** C8: a row without one of [table_database], [table_schema],
    [table_name] makes [add_column] (and [get_table]) raise the
    compilation error that names a field the row lacks, the first of the
    three in this order, and the catalog is returned as it was. *)
Theorem add_column_missing_identity_field (data : PrimitiveDict) (self : Catalog) :
  (∃ field, field ∈ identity_fields ∧ data !! field = None) →
  ∃ field, field ∈ identity_fields ∧ data !! field = None ∧
    get_table data self = (Raise (CompilationException field), self) ∧
    add_column data self = (Raise (CompilationException field), self).
Proof.
  intros (field0 & Hin & Hnone).
  destruct (catalog_key data) as [key|e] eqn:Hkey.
  - apply catalog_key_Ok in Hkey as (db & sch & nm & Hdb & Hsch & Hnm & _).
    unfold identity_fields in Hin.
    repeat (apply elem_of_cons in Hin as [->|Hin]; [congruence|]).
    by apply elem_of_nil in Hin.
  - pose proof Hkey as Hkey'.
    apply catalog_key_Raise in Hkey' as (field & -> & Hfield & Hwhich).
    exists field. split_and!.
    + unfold identity_fields.
      destruct Hwhich as [->|[[-> _]|(-> & _)]]; set_solver.
    + done.
    + unfold get_table. by rewrite Hkey.
    + unfold add_column, get_table. by rewrite Hkey.
Qed.


Lemma build_catalog_table_columns data table :
  build_catalog_table data = Ok table → CatalogTable.columns table = ∅.
Proof.
  unfold build_catalog_table.
  destruct (TableMetadata.from_dict _); simpl; [|done].
  destruct (format_stats _); simpl; [|done].
  by intros [= <-].
Qed.

(** C2 (as amended): the key under which [add_column] groups a row is the
    triple of its stringified [table_database], [table_schema] and
    [table_name], letter case kept; the row's column goes into the entry
    under that key, and every other entry of the catalog, those whose key
    differs in letter case among them, stays as it was. *)
Theorem add_column_groups_by_stringified_key
    (data : PrimitiveDict) (self self' : Catalog) (db sch nm : Primitive) :
  data !! "table_database" = Some db →
  data !! "table_schema" = Some sch →
  data !! "table_name" = Some nm →
  add_column data self = (Ok (), self') →
  catalog_key data = Ok (py_str db, py_str sch, py_str nm) ∧
  (∃ table column,
     column_of data = Ok column ∧
     self' !! (py_str db, py_str sch, py_str nm) = Some table ∧
     CatalogTable.columns table !! ColumnMetadata.name column = Some column) ∧
  (∀ key, key ≠ (py_str db, py_str sch, py_str nm) → self' !! key = self !! key).
Proof.
  intros Hdb Hsch Hnm Hadd.
  assert (Hkey : catalog_key data = Ok (py_str db, py_str sch, py_str nm)).
  { apply catalog_key_Ok. by exists db, sch, nm. }
  apply add_column_Ok in Hadd as (key & table & column & Hkey' & Hcol & _ & ->).
  assert (key = (py_str db, py_str sch, py_str nm)) as -> by congruence.
  split_and!; [done| |].
  - exists (CatalogTable.set_column table column), column.
    split_and!; [done|by rewrite lookup_insert_eq|].
    unfold CatalogTable.set_column; simpl. by rewrite lookup_insert_eq.
  - intros key Hne. by rewrite lookup_insert_ne.
Qed.

(** ** The catalog: a sequence of rows *)

Lemma add_columns_app xs ys self :
  add_columns (xs ++ ys) self =
    match add_columns xs self with
    | (Raise e, self') => (Raise e, self')
    | (Ok _, self') => add_columns ys self'
    end.
Proof.
  revert self. induction xs as [|x xs IH]; intros self; simpl; [done|].
  destruct (add_column x self) as [[[]|e] self1]; [apply IH|done].
Qed.

(** C5: a row fed twice in a row leaves what the row fed once leaves: the
    catalog built is the same, and so is the exception when the
    construction raises; this from any catalog the loop starts in. *)
Theorem Catalog_init_row_twice (xs ys : list PrimitiveDict) (r : PrimitiveDict) :
  Catalog_init (xs ++ r :: r :: ys) = Catalog_init (xs ++ r :: ys) ∧
  ∀ self, add_columns (xs ++ r :: r :: ys) self = add_columns (xs ++ r :: ys) self.
Proof.
  assert (Hloop : ∀ self,
    add_columns (xs ++ r :: r :: ys) self = add_columns (xs ++ r :: ys) self).
  { intros self. rewrite !add_columns_app.
    destruct (add_columns xs self) as [[[]|e] self1]; [|done]. simpl.
    destruct (add_column r self1) as [[[]|e] self2] eqn:Hr; [|done].
    by rewrite (add_column_again _ _ _ Hr). }
  split; [|done]. unfold Catalog_init. by rewrite Hloop.
Qed.

(** The columns that the rows of one key write, one over the other. *)
Definition accumulate (key : CatalogKey)
    (columns : gmap string ColumnMetadata.t) (row : PrimitiveDict)
  : gmap string ColumnMetadata.t :=
  if decide (catalog_key row = Ok key) then
    match column_of row with
    | Ok column => <[ColumnMetadata.name column := column]> columns
    | Raise _ => columns
    end
  else columns.

Definition columns_for (key : CatalogKey) (rows : list PrimitiveDict)
  : gmap string ColumnMetadata.t :=
  foldl (accumulate key) ∅ rows.

Section rows.
Variable key : CatalogKey.

Lemma accumulate_others rows columns :
  Forall (λ row, catalog_key row ≠ Ok key) rows →
  foldl (accumulate key) columns rows = columns.
Proof.
  intros Hrows. revert columns.
  induction Hrows as [|row rows Hrow _ IH]; intros columns; simpl; [done|].
  unfold accumulate at 2. by rewrite decide_False, IH.
Qed.

(** What the loop makes of the entry under [key]: an entry that is there
    keeps its metadata and stats and takes the columns of the rows of the
    key; an entry that is not there is built from the first row of the
    key, if there is one. *)
Lemma add_columns_entry rows self self' :
  add_columns rows self = (Ok (), self') →
  match self !! key with
  | Some table0 =>
      ∃ table, self' !! key = Some table ∧
        CatalogTable.metadata table = CatalogTable.metadata table0 ∧
        CatalogTable.stats table = CatalogTable.stats table0 ∧
        CatalogTable.columns table =
          foldl (accumulate key) (CatalogTable.columns table0) rows
  | None =>
      (self' !! key = None ∧ Forall (λ row, catalog_key row ≠ Ok key) rows) ∨
      ∃ (before : list PrimitiveDict) r after table0 table,
        rows = (before ++ r :: after)%list ∧
        Forall (λ row, catalog_key row ≠ Ok key) before ∧
        catalog_key r = Ok key ∧
        build_catalog_table r = Ok table0 ∧
        self' !! key = Some table ∧
        CatalogTable.metadata table = CatalogTable.metadata table0 ∧
        CatalogTable.stats table = CatalogTable.stats table0 ∧
        CatalogTable.columns table = foldl (accumulate key) ∅ (r :: after)
  end.
Proof.
  revert self. induction rows as [|r rows' IH]; intros self; simpl.
  - intros [= <-]. destruct (self !! key) as [table0|] eqn:Hself; [eauto|].
    left. split; [done|constructor].
  - destruct (add_column r self) as [[[]|e] self1] eqn:Hr; [|done].
    intros Hrest. apply IH in Hrest.
    apply add_column_Ok in Hr
      as (key_r & table_r & column & Hkey_r & Hcol & Hfrom & ->).
    destruct (decide (key_r = key)) as [->|Hne].
    + rewrite lookup_insert_eq in Hrest.
      destruct Hrest as (table & Hself' & Hmeta & Hstats & Hcols).
      simpl in Hmeta, Hstats, Hcols.
      assert (Hacc : ∀ columns, accumulate key columns r =
                       <[ColumnMetadata.name column := column]> columns).
      { intros columns. unfold accumulate. by rewrite decide_True, Hcol. }
      destruct Hfrom as [Hself|[Hself Hbuild]]; rewrite Hself.
      * exists table. by rewrite Hacc.
      * right. exists [], r, rows', table_r, table.
        rewrite Hacc, <-(build_catalog_table_columns _ _ Hbuild).
        split_and!; done || constructor.
    + rewrite lookup_insert_ne in Hrest by done.
      assert (Hkey_r' : catalog_key r ≠ Ok key) by congruence.
      destruct (self !! key) as [table0|] eqn:Hself.
      * unfold accumulate at 2. by rewrite decide_False.
      * destruct Hrest as [[Hself' Hrows']|
          (before & r' & after & table0 & table & -> & Hbefore & Hrest)].
        -- left. split; [done|by constructor].
        -- right. exists (r :: before), r', after, table0, table.
           split_and!; [done|by constructor|apply Hrest..].
Qed.
End rows.

(** C6 (as amended): in a catalog that is built, the entry under a key of
    the catalog, which is the triple of the stringified identity fields
    with their letter case, has the metadata and the stats of the table
    built from the first row of the sequence that has this key, whatever
    the later rows of the key hold, and its columns are those that the
    rows of the key have written, one over the other. *)
Theorem first_row_fixes_metadata_and_stats
    (rows : list PrimitiveDict) (self : Catalog) (key : CatalogKey)
    (table : CatalogTable.t) :
  Catalog_init rows = Ok self →
  self !! key = Some table →
  ∃ (before : list PrimitiveDict) r after table0,
    rows = (before ++ r :: after)%list ∧
    Forall (λ row, catalog_key row ≠ Ok key) before ∧
    catalog_key r = Ok key ∧
    build_catalog_table r = Ok table0 ∧
    CatalogTable.metadata table = CatalogTable.metadata table0 ∧
    CatalogTable.stats table = CatalogTable.stats table0 ∧
    CatalogTable.columns table = columns_for key rows.
Proof.
  unfold Catalog_init.
  destruct (add_columns rows ∅) as [[[]|e] self1] eqn:Hloop; [|done].
  intros [= ->] Hself.
  apply (add_columns_entry key) in Hloop. rewrite lookup_empty in Hloop.
  destruct Hloop as [[Hnone _]|
    (before & r & after & table0 & table' & -> & Hbefore & Hkey & Hbuild
       & Hself' & Hmeta & Hstats & Hcols)]; [congruence|].
  assert (table' = table) as -> by congruence.
  exists before, r, after, table0. split_and!; try done.
  unfold columns_for. rewrite foldl_app.
  by rewrite (accumulate_others key before ∅ Hbefore).
Qed.

(** ** The index of a column *)

(** [int] of a number is its value rounded towards zero: the quotient
    [÷] of the fraction. *)
Lemma py_int_numeric v num den :
  numeric_value v = Some (num, den) →
  (0 < den)%Z ∧ py_int v = Ok (num ÷ den)%Z.
Proof.
  destruct v as [s|b|z|[f repr]|]; simpl; try done.
  - intros [= <- <-]. by rewrite Z.quot_1_r.
  - intros [= <- <-]. by rewrite Z.quot_1_r.
  - destruct f as [s| | |s m e]; simpl; try done.
    + by intros [= <- <-].
    + destruct (Z.leb_spec 0 e) as [He|He]; intros [= <- <-].
      * rewrite Z.quot_1_r, Z.shiftl_mul_pow2 by done. done.
      * assert (0 < 2 ^ (- e))%Z as Hpow by (apply Z.pow_pos_nonneg; lia).
        split; [done|].
        rewrite Z.shiftl_div_pow2 by lia. f_equal.
        destruct s.
        -- rewrite Z.quot_opp_l by lia. f_equal.
           symmetry. apply Z.quot_div_nonneg; lia.
        -- symmetry. apply Z.quot_div_nonneg; lia.
Qed.

(** Rounding towards zero, spelled out. *)
Lemma quot_truncates num den :
  (0 < den)%Z →
  (Z.abs (num ÷ den) * den ≤ Z.abs num < (Z.abs (num ÷ den) + 1) * den)%Z ∧
  (0 ≤ num → 0 ≤ num ÷ den)%Z ∧ (num ≤ 0 → num ÷ den ≤ 0)%Z.
Proof.
  intros Hden. split; [|split].
  - rewrite <-Z.quot_abs by lia.
    rewrite (Z.abs_eq den) by lia.
    pose proof (Z.quot_rem' (Z.abs num) den) as Heq.
    pose proof (Z.rem_bound_pos (Z.abs num) den) as Hrem.
    nia.
  - intros. apply Z.quot_pos; lia.
  - intros. rewrite <-(Z.opp_involutive num), Z.quot_opp_l by lia.
    assert (0 ≤ - num ÷ den)%Z; [apply Z.quot_pos|]; lia.
Qed.

Definition valid_comment (v : option Primitive) : bool :=
  match v with
  | None | Some PNone | Some (PStr _) => true
  | Some _ => false
  end.

(** C9 (as amended): for a row that [get_table] accepts, whose
    [column_name] and [column_type] are text and whose [column_comment],
    if any, is text or [None], and whose [column_index] is a number that is
    not negative, [add_column] returns, the index of the column is the
    number rounded towards zero, which is not negative, and the column is
    in the columns of the row's entry under its name.  (No bound on the
    number is needed; a negative number is rounded towards zero as well,
    and kept.) *)
Theorem add_column_index_truncated
    (data : PrimitiveDict) (self self1 : Catalog) (key : CatalogKey)
    (table : CatalogTable.t) (v : Primitive) (num den : Z) (nm ty : string) :
  get_table data self = (Ok (key, table), self1) →
  data !! "column_name" = Some (PStr nm) →
  data !! "column_type" = Some (PStr ty) →
  valid_comment (data !! "column_comment") = true →
  data !! "column_index" = Some v →
  numeric_value v = Some (num, den) →
  (0 ≤ num)%Z →
  ∃ self' table' column,
    add_column data self = (Ok (), self') ∧
    self' !! key = Some table' ∧
    CatalogTable.columns table' !! nm = Some column ∧
    ColumnMetadata.name column = nm ∧
    ColumnMetadata.index column = (num ÷ den)%Z ∧
    (0 ≤ ColumnMetadata.index column)%Z.
Proof.
  intros Hget Hname Htype Hcomment Hindex Hnum Hpos.
  apply py_int_numeric in Hnum as [Hden Hint].
  assert (∃ comment, column_of data =
            Ok (ColumnMetadata.mk ty comment (num ÷ den)%Z nm)) as [comment Hcol].
  { unfold column_of, getitem. rewrite get_stripped_prefix_lookup.
    change ("column_" +:+ "index") with "column_index". rewrite Hindex. simpl.
    rewrite Hint. simpl. unfold ColumnMetadata.from_dict.
    rewrite lookup_insert_eq, !lookup_insert_ne, !get_stripped_prefix_lookup by done.
    change ("column_" +:+ "type") with "column_type".
    change ("column_" +:+ "name") with "column_name".
    change ("column_" +:+ "comment") with "column_comment".
    rewrite Htype, Hname.
    destruct (data !! "column_comment") as [[c| | | |]|]; try done; eauto. }
  eexists _, _, _. unfold add_column. rewrite Hget, Hcol.
  split; [reflexivity|]. split; [apply lookup_insert_eq|].
  split; [unfold CatalogTable.set_column; simpl; apply lookup_insert_eq|].
  simpl. split_and!; [done..|]. apply Z.quot_pos; lia.
Qed.

(** ** make_unique_id_map *)

Lemma for_each_cons {A S} (body : A → S → result S) x l s :
  for_each body (x :: l) s = (s' ← body x s; for_each body l s').
Proof. reflexivity. Qed.

Lemma for_each_app {A S} (body : A → S → result S) l1 l2 s :
  for_each body (l1 ++ l2) s = (s' ← for_each body l1 s; for_each body l2 s').
Proof.
  revert s. induction l1 as [|x l1 IH]; intros s; simpl; [done|].
  destruct (body x s); simpl; [apply IH|done].
Qed.

(** The unique ids that the manifest binds to the normalized key of a
    table: [manifest_mapping.get(table.key(), [])]. *)
Definition unique_ids_of (manifest : Manifest) (table : CatalogTable.t)
  : list string :=
  default [] (get_unique_id_mapping manifest !! CatalogTable.key table).

(** An identifier resolves to the entry under a key of the catalog. *)
Definition resolves_to (self : Catalog) (manifest : Manifest)
    (unique_id : string) (key : CatalogKey) : Prop :=
  ∃ table node, self !! key = Some table ∧ manifest !! unique_id = Some node ∧
                mapping_key node = CatalogTable.key table.

(** Two entries of the catalog have the normalized key that a node of the
    manifest points at. *)
Definition ambiguous (self : Catalog) (manifest : Manifest) : Prop :=
  ∃ unique_id key1 key2,
    key1 ≠ key2 ∧ resolves_to self manifest unique_id key1 ∧
    resolves_to self manifest unique_id key2.

Section ident_map.

Lemma ident_map_add_lookup ident_map item k :
  default [] (ident_map_add ident_map item !! k) =
    default [] (ident_map !! k) ++
      (if decide (k = mapping_key item.2) then [item.1] else []).
Proof.
  unfold ident_map_add.
  destruct (decide (k = mapping_key item.2)) as [->|Hne].
  - rewrite lookup_insert_eq. simpl.
    destruct (ident_map !! mapping_key item.2) eqn:Hk; [by rewrite Hk|].
    by rewrite lookup_insert_eq.
  - rewrite lookup_insert_ne by done. rewrite app_nil_r.
    destruct (ident_map !! mapping_key item.2); [done|].
    by rewrite lookup_insert_ne.
Qed.

Lemma ident_map_fold_lookup items ident_map k :
  default [] (foldl ident_map_add ident_map items !! k) =
    default [] (ident_map !! k) ++
      (filter (λ item, mapping_key item.2 = k) items).*1.
Proof.
  revert ident_map. induction items as [|item items IH]; intros ident_map; simpl.
  - by rewrite app_nil_r.
  - rewrite IH, ident_map_add_lookup, <-app_assoc. f_equal.
    rewrite filter_cons. destruct (decide (k = mapping_key item.2)) as [->|Hne].
    + by rewrite decide_True.
    + by rewrite decide_False.
Qed.

Lemma NoDup_filter_fst {A B} (P : A * B → Prop) `{∀ x, Decision (P x)}
    (l : list (A * B)) :
  NoDup l.*1 → NoDup (filter P l).*1.
Proof.
  induction l as [|x l IH]; [done|]. rewrite fmap_cons, NoDup_cons.
  intros [Hx Hl]. rewrite filter_cons. case_decide; [|auto].
  rewrite fmap_cons, NoDup_cons. split; [|auto].
  intros Hin. apply Hx.
  apply list_elem_of_fmap in Hin as (y & -> & Hy%list_elem_of_filter).
  apply list_elem_of_fmap. exists y. tauto.
Qed.

Variable manifest : Manifest.

Lemma unique_ids_of_eq table :
  unique_ids_of manifest table =
    (filter (λ item, mapping_key item.2 = CatalogTable.key table)
            (map_to_list manifest)).*1.
Proof.
  unfold unique_ids_of, get_unique_id_mapping.
  by rewrite ident_map_fold_lookup, lookup_empty.
Qed.

Lemma elem_of_unique_ids_of table unique_id :
  unique_id ∈ unique_ids_of manifest table ↔
  ∃ node, manifest !! unique_id = Some node ∧
          mapping_key node = CatalogTable.key table.
Proof.
  rewrite unique_ids_of_eq, list_elem_of_fmap. split.
  - intros ([u node] & -> & [Hkey Hin%elem_of_map_to_list]%list_elem_of_filter).
    by exists node.
  - intros (node & Hnode & Hkey). exists (unique_id, node). split; [done|].
    apply list_elem_of_filter. split; [done|]. by apply elem_of_map_to_list.
Qed.

Lemma NoDup_unique_ids_of table : NoDup (unique_ids_of manifest table).
Proof.
  rewrite unique_ids_of_eq. apply NoDup_filter_fst, NoDup_fst_map_to_list.
Qed.

End ident_map.

Lemma add_unique_id_free table unique_id nodes :
  nodes !! unique_id = None →
  add_unique_id table unique_id nodes =
    Ok (<[unique_id := CatalogTable.replace_unique_id table unique_id]> nodes).
Proof. unfold add_unique_id. by intros ->. Qed.

Lemma add_unique_id_taken table unique_id nodes :
  is_Some (nodes !! unique_id) →
  add_unique_id table unique_id nodes = Raise (AmbiguousCatalogMatch unique_id).
Proof. unfold add_unique_id. by intros [? ->]. Qed.

Section loops.
Variable ids : CatalogTable.t → list string.

Let add_table' (table : CatalogTable.t) (nodes : gmap string CatalogTable.t) :=
  for_each (add_unique_id table) (ids table) nodes.

(** The inner loop. *)
Lemma add_unique_ids_Ok table l nodes nodes' :
  for_each (add_unique_id table) l nodes = Ok nodes' →
  NoDup l ∧ (∀ u, u ∈ l → nodes !! u = None) ∧
  ∀ u, nodes' !! u =
         if decide (u ∈ l) then Some (CatalogTable.replace_unique_id table u)
         else nodes !! u.
Proof.
  revert nodes. induction l as [|u0 l IH]; intros nodes.
  - intros [= <-]. split_and!; [constructor|set_solver|done].
  - rewrite for_each_cons.
    destruct (nodes !! u0) eqn:Hu0;
      [by rewrite add_unique_id_taken|rewrite add_unique_id_free by done].
    change (Ok ?a ≫= ?k) with (k a). cbv beta.
    intros (Hnd & Hfree & Hlook)%IH. split_and!.
    + apply NoDup_cons. split; [|done]. intros Hin.
      specialize (Hfree _ Hin). by rewrite lookup_insert_eq in Hfree.
    + intros u [->|Hin]%elem_of_cons; [done|].
      specialize (Hfree _ Hin).
      destruct (decide (u = u0)) as [->|Hne]; [done|].
      by rewrite lookup_insert_ne in Hfree.
    + intros u. rewrite Hlook. destruct (decide (u ∈ l)) as [Hin|Hin].
      * by rewrite decide_True by set_solver.
      * destruct (decide (u = u0)) as [->|Hne].
        -- rewrite decide_True by set_solver. by rewrite lookup_insert_eq.
        -- rewrite decide_False by set_solver. by rewrite lookup_insert_ne.
Qed.

Lemma add_unique_ids_total table l nodes :
  NoDup l → (∀ u, u ∈ l → nodes !! u = None) →
  ∃ nodes', for_each (add_unique_id table) l nodes = Ok nodes'.
Proof.
  intros Hnd. revert nodes.
  induction Hnd as [|u0 l Hu0 _ IH]; intros nodes Hfree; [by eexists|].
  rewrite for_each_cons, add_unique_id_free by set_solver.
  change (Ok ?a ≫= ?k) with (k a). cbv beta.
  apply IH. intros u Hin. rewrite lookup_insert_ne by set_solver.
  apply Hfree. set_solver.
Qed.

Lemma add_unique_ids_Raise table l nodes e :
  for_each (add_unique_id table) l nodes = Raise e →
  ∃ u, u ∈ l ∧ e = AmbiguousCatalogMatch u.
Proof.
  revert nodes. induction l as [|u0 l IH]; intros nodes; [done|].
  rewrite for_each_cons. destruct (nodes !! u0) eqn:Hu0.
  - rewrite add_unique_id_taken by done.
    intros [= <-]. exists u0. set_solver.
  - rewrite add_unique_id_free by done.
    change (Ok ?a ≫= ?k) with (k a). cbv beta.
    intros (u & ? & ?)%IH. exists u. set_solver.
Qed.

(** The outer loop. *)
Lemma add_tables_Ok tables nodes nodes' :
  for_each add_table' tables nodes = Ok nodes' →
  NoDup (tables ≫= ids) ∧ (∀ u, u ∈ tables ≫= ids → nodes !! u = None) ∧
  ∀ u table', nodes' !! u = Some table' ↔
    nodes !! u = Some table' ∨
    ∃ table, table ∈ tables ∧ u ∈ ids table ∧
             table' = CatalogTable.replace_unique_id table u.
Proof.
  revert nodes. induction tables as [|table tables IH]; intros nodes.
  - intros [= <-]. split_and!; [constructor|set_solver|].
    intros u table'. split; [auto|]. intros [?|(? & []%elem_of_nil & _)]. done.
  - rewrite for_each_cons, bind_cons.
    destruct (add_table' table nodes) as [nodes1|e] eqn:Hin; [|done].
    change (Ok ?a ≫= ?k) with (k a). cbv beta.
    intros (Hnd & Hfree & Hlook)%IH.
    apply add_unique_ids_Ok in Hin as (Hnd1 & Hfree1 & Hlook1).
    split_and!.
    + apply NoDup_app. split_and!; [done| |done].
      intros u Hu Hu'. specialize (Hfree _ Hu').
      rewrite Hlook1, decide_True in Hfree by done. done.
    + intros u [Hu|Hu]%elem_of_app; [auto|].
      specialize (Hfree _ Hu). rewrite Hlook1 in Hfree.
      by destruct (decide (u ∈ ids table)).
    + intros u table'. rewrite Hlook, Hlook1. split.
      * intros [Hu|(table2 & ? & ? & ?)].
        -- destruct (decide (u ∈ ids table)); [|auto].
           injection Hu as <-. right. exists table. set_solver.
        -- right. exists table2. set_solver.
      * intros [Hu|(table2 & [->|?]%elem_of_cons & Hu & ->)].
        -- left. rewrite decide_False; [done|].
           intros Hu'. specialize (Hfree1 _ Hu'). congruence.
        -- left. by rewrite decide_True.
        -- right. by exists table2.
Qed.

Lemma add_tables_total tables nodes :
  NoDup (tables ≫= ids) → (∀ u, u ∈ tables ≫= ids → nodes !! u = None) →
  ∃ nodes', for_each add_table' tables nodes = Ok nodes'.
Proof.
  revert nodes. induction tables as [|table tables IH]; intros nodes;
    [by eexists|].
  rewrite for_each_cons, bind_cons.
  intros (Hnd1 & Hdisj & Hnd)%NoDup_app Hfree.
  destruct (add_unique_ids_total table (ids table) nodes) as [nodes1 Hin];
    [done|set_solver|].
  fold (add_table' table nodes) in Hin. rewrite Hin.
  change (Ok ?a ≫= ?k) with (k a). cbv beta. apply IH; [done|].
  intros u Hu. apply add_unique_ids_Ok in Hin as (_ & _ & ->).
  rewrite decide_False; [set_solver|]. intros Hu'. by apply (Hdisj u).
Qed.

Lemma add_tables_Raise tables nodes e :
  for_each add_table' tables nodes = Raise e →
  ∃ u, u ∈ tables ≫= ids ∧ e = AmbiguousCatalogMatch u.
Proof.
  revert nodes. induction tables as [|table tables IH]; intros nodes;
    [done|].
  rewrite for_each_cons, bind_cons.
  destruct (add_table' table nodes) as [nodes1|e'] eqn:Hin.
  - change (Ok ?a ≫= ?k) with (k a). cbv beta.
    intros (u & ? & ?)%IH. exists u. set_solver.
  - intros [= <-]. apply add_unique_ids_Raise in Hin as (u & ? & ?).
    exists u. set_solver.
Qed.

(** No identifier occurs twice in the loop: no two entries, of different
    keys, have an identifier in common. *)
Lemma NoDup_bind_entries (entries : list (CatalogKey * CatalogTable.t)) :
  NoDup entries.*1 → (∀ table, NoDup (ids table)) →
  NoDup (entries.*2 ≫= ids) ↔
  ∀ e1 e2 u, e1 ∈ entries → e2 ∈ entries →
             u ∈ ids e1.2 → u ∈ ids e2.2 → e1.1 = e2.1.
Proof.
  intros Hkeys Hids. induction entries as [|e entries IH]; simpl.
  - split; [set_solver|constructor].
  - rewrite fmap_cons, NoDup_cons in Hkeys. destruct Hkeys as [He Hkeys].
    rewrite NoDup_app, (IH Hkeys). split.
    + intros (_ & Hdisj & Hrest) e1 e2 u
        [->|H1]%elem_of_cons [->|H2]%elem_of_cons Hu1 Hu2; [done| | |eauto].
      * destruct (Hdisj u Hu1). apply list_elem_of_bind. exists e2.2.
        split; [done|]. apply list_elem_of_fmap. eauto.
      * destruct (Hdisj u Hu2). apply list_elem_of_bind. exists e1.2.
        split; [done|]. apply list_elem_of_fmap. eauto.
    + intros Hall. split_and!; [done| |].
      * intros u Hu (table & Hu' & (e2 & -> & He2)%list_elem_of_fmap)%list_elem_of_bind.
        apply He. apply list_elem_of_fmap. exists e2. split; [|done].
        apply (Hall e e2 u); set_solver.
      * intros e1 e2 u ? ?. apply Hall; set_solver.
Qed.

End loops.

Section resolve.
Variable self : Catalog.
Variable manifest : Manifest.

Lemma make_unique_id_map_unfold :
  make_unique_id_map self manifest =
    for_each
      (λ table nodes,
         for_each (add_unique_id table) (unique_ids_of manifest table) nodes)
      (map_to_list self).*2 ∅.
Proof. reflexivity. Qed.

Lemma resolves_to_unique_ids unique_id key :
  resolves_to self manifest unique_id key ↔
  ∃ table, (key, table) ∈ map_to_list self ∧
           unique_id ∈ unique_ids_of manifest table.
Proof.
  unfold resolves_to. split.
  - intros (table & node & Hself & Hnode & Hkey). exists table. split.
    + by apply elem_of_map_to_list.
    + apply elem_of_unique_ids_of. eauto.
  - intros (table & Hself%elem_of_map_to_list & (node & ? & ?)%elem_of_unique_ids_of).
    by exists table, node.
Qed.

Lemma NoDup_unique_ids_iff :
  NoDup ((map_to_list self).*2 ≫= unique_ids_of manifest) ↔
  ¬ ambiguous self manifest.
Proof.
  rewrite NoDup_bind_entries;
    [|apply NoDup_fst_map_to_list|apply NoDup_unique_ids_of].
  split.
  - intros Hall (u & key1 & key2 & Hne & H1 & H2).
    apply resolves_to_unique_ids in H1 as (table1 & Hin1 & Hu1).
    apply resolves_to_unique_ids in H2 as (table2 & Hin2 & Hu2).
    apply Hne. apply (Hall (key1, table1) (key2, table2) u); done.
  - intros Hamb [key1 table1] [key2 table2] u Hin1 Hin2 Hu1 Hu2. simpl in *.
    destruct (decide (key1 = key2)) as [|Hne]; [done|].
    destruct Hamb. exists u, key1, key2. split; [done|].
    split; apply resolves_to_unique_ids; eauto.
Qed.

Lemma ambiguous_entries :
  ambiguous self manifest ↔
  Exists (λ e1, Exists (λ e2,
      e1.1 ≠ e2.1 ∧
      Exists (λ u, u ∈ unique_ids_of manifest e2.2)
             (unique_ids_of manifest e1.2))
    (map_to_list self)) (map_to_list self).
Proof.
  unfold ambiguous. split.
  - intros (u & key1 & key2 & Hne & H1 & H2).
    apply resolves_to_unique_ids in H1 as (table1 & Hin1 & Hu1).
    apply resolves_to_unique_ids in H2 as (table2 & Hin2 & Hu2).
    apply Exists_exists. exists (key1, table1). split; [done|].
    apply Exists_exists. exists (key2, table2). split; [done|].
    split; [done|]. apply Exists_exists. by exists u.
  - intros ([key1 table1] & Hin1 & He2)%Exists_exists.
    apply Exists_exists in He2 as ([key2 table2] & Hin2 & Hne & Hu).
    apply Exists_exists in Hu as (u & Hu1 & Hu2). simpl in *.
    exists u, key1, key2. split; [done|].
    split; apply resolves_to_unique_ids; eauto.
Qed.

Global Instance ambiguous_dec : Decision (ambiguous self manifest).
Proof.
  refine (cast_if (decide (Exists (λ e1, Exists (λ e2,
      e1.1 ≠ e2.1 ∧
      Exists (λ u, u ∈ unique_ids_of manifest e2.2)
             (unique_ids_of manifest e1.2))
    (map_to_list self)) (map_to_list self))));
    by rewrite ambiguous_entries.
Defined.

(** What [make_unique_id_map] does, by cases. *)
Lemma make_unique_id_map_cases :
  match make_unique_id_map self manifest with
  | Ok nodes =>
      ¬ ambiguous self manifest ∧
      ∀ unique_id table',
        nodes !! unique_id = Some table' ↔
        ∃ key table node,
          self !! key = Some table ∧ manifest !! unique_id = Some node ∧
          mapping_key node = CatalogTable.key table ∧
          table' = CatalogTable.replace_unique_id table unique_id
  | Raise e =>
      ambiguous self manifest ∧
      ∃ unique_id, e = AmbiguousCatalogMatch unique_id ∧
                   is_Some (manifest !! unique_id)
  end.
Proof.
  rewrite make_unique_id_map_unfold.
  destruct (for_each _ _ _) as [nodes|e] eqn:Hloop.
  - apply add_tables_Ok in Hloop as (Hnd & _ & Hlook). split.
    + by apply NoDup_unique_ids_iff.
    + intros u table'. rewrite Hlook, lookup_empty. split.
      * intros [?|(table & (e & -> & Hin)%list_elem_of_fmap & Hu & ->)]; [done|].
        destruct e as [key table]. apply elem_of_map_to_list in Hin.
        apply elem_of_unique_ids_of in Hu as (node & ? & ?).
        by exists key, table, node.
      * intros (key & table & node & Hself & Hnode & Hkey & ->). right.
        exists table. split_and!; [|by apply elem_of_unique_ids_of; eauto|done].
        apply list_elem_of_fmap. exists (key, table). split; [done|].
        by apply elem_of_map_to_list.
  - split.
    + destruct (decide (NoDup ((map_to_list self).*2 ≫= unique_ids_of manifest)))
        as [Hnd|Hnd].
      * destruct (add_tables_total (unique_ids_of manifest)
                    (map_to_list self).*2 ∅ Hnd) as [nodes Hnodes];
          [by intros; apply lookup_empty|].
        congruence.
      * destruct (decide (ambiguous self manifest)) as [|Hamb];
          [done|by apply NoDup_unique_ids_iff in Hamb].
    + apply add_tables_Raise in Hloop as (u & Hu & ->). exists u. split; [done|].
      apply list_elem_of_bind in Hu as (table & (node & -> & _)%elem_of_unique_ids_of & _).
      eauto.
Qed.
End resolve.

(** C3 (as amended): [make_unique_id_map] raises exactly when two entries
    of the catalog, of different keys, have the normalized key that some
    node of the manifest points at, and what it raises is the ambiguous
    match on a unique id of the manifest; when it returns, the result
    holds, under each unique id that resolves to an entry of the catalog,
    that entry with the id set, each entry of the result comes from the
    one entry of the catalog that its id resolves to, and there is no
    other entry. *)
Theorem make_unique_id_map_raises_iff (self : Catalog) (manifest : Manifest) :
  ((∃ e, make_unique_id_map self manifest = Raise e) ↔
   ambiguous self manifest) ∧
  (∀ e, make_unique_id_map self manifest = Raise e →
        ∃ unique_id, e = AmbiguousCatalogMatch unique_id ∧
                     is_Some (manifest !! unique_id)) ∧
  (∀ nodes, make_unique_id_map self manifest = Ok nodes →
     (∀ unique_id key table,
        self !! key = Some table → resolves_to self manifest unique_id key →
        nodes !! unique_id = Some (CatalogTable.replace_unique_id table unique_id)) ∧
     (∀ unique_id table',
        nodes !! unique_id = Some table' →
        ∃ key table,
          resolves_to self manifest unique_id key ∧
          (∀ key', resolves_to self manifest unique_id key' → key' = key) ∧
          self !! key = Some table ∧
          table' = CatalogTable.replace_unique_id table unique_id)).
Proof.
  pose proof (make_unique_id_map_cases self manifest) as Hcases.
  destruct (make_unique_id_map self manifest) as [nodes|e].
  - destruct Hcases as [Hamb Hlook]. split_and!.
    + split; [by intros [e ?]|done].
    + done.
    + intros nodes' [= <-]. split.
      * intros u key table Hself (table2 & node & Hself2 & Hnode & Hkey).
        apply Hlook. exists key, table, node. split_and!; congruence.
      * intros u table' (key & table & node & Hself & Hnode & Hkey & ->)%Hlook.
        exists key, table. split_and!; [by exists table, node| |done..].
        intros key' Hres. destruct (decide (key' = key)) as [|Hne]; [done|].
        destruct Hamb. exists u, key', key. split_and!; [done..|].
        by exists table, node.
  - destruct Hcases as [Hamb Hraise]. split_and!.
    + split; [done|eauto].
    + by intros e' [= <-].
    + done.
Qed.

(** C7 (as amended): when two unique ids of the manifest, different from
    each other, point at the normalized key of an entry of the catalog,
    [make_unique_id_map] returns unless the catalog is ambiguous for the
    manifest (two entries of different keys have the normalized key that a
    node points at), and the result holds under each of the two ids that
    entry with the id set: the metadata, the columns and the stats are
    those of the entry under both ids.  When the catalog is ambiguous,
    [make_unique_id_map] raises the ambiguous match. *)
Theorem make_unique_id_map_fan_out
    (self : Catalog) (manifest : Manifest) (key : CatalogKey)
    (table : CatalogTable.t) (id1 id2 : string) (node1 node2 : CompileResultNode) :
  self !! key = Some table →
  id1 ≠ id2 →
  manifest !! id1 = Some node1 →
  manifest !! id2 = Some node2 →
  mapping_key node1 = CatalogTable.key table →
  mapping_key node2 = CatalogTable.key table →
  (¬ ambiguous self manifest →
   ∃ nodes table1 table2,
     make_unique_id_map self manifest = Ok nodes ∧
     nodes !! id1 = Some table1 ∧ nodes !! id2 = Some table2 ∧
     table1 = CatalogTable.replace_unique_id table id1 ∧
     table2 = CatalogTable.replace_unique_id table id2 ∧
     CatalogTable.metadata table1 = CatalogTable.metadata table2 ∧
     CatalogTable.columns table1 = CatalogTable.columns table2 ∧
     CatalogTable.stats table1 = CatalogTable.stats table2 ∧
     CatalogTable.metadata table1 = CatalogTable.metadata table ∧
     CatalogTable.columns table1 = CatalogTable.columns table ∧
     CatalogTable.stats table1 = CatalogTable.stats table) ∧
  (ambiguous self manifest →
   ∃ unique_id,
     make_unique_id_map self manifest = Raise (AmbiguousCatalogMatch unique_id)).
Proof.
  intros Hself Hne Hnode1 Hnode2 Hkey1 Hkey2.
  pose proof (make_unique_id_map_cases self manifest) as Hcases.
  destruct (make_unique_id_map self manifest) as [nodes|e].
  - destruct Hcases as [Hno Hlook]. split; [|done]. intros _.
    exists nodes, (CatalogTable.replace_unique_id table id1),
      (CatalogTable.replace_unique_id table id2).
    split_and!; try done.
    + apply Hlook. by exists key, table, node1.
    + apply Hlook. by exists key, table, node2.
  - destruct Hcases as [Hyes (u & -> & _)]. split; [done|]. intros _. by exists u.
Qed.

(** * Concrete runs *)

(** Closed facts are decided by evaluation. *)
Ltac by_compute := apply (bool_decide_eq_true_1 _); vm_compute; reflexivity.

Definition float_zero : Primitive := PFloat (PyFloat (S754_zero false) "0.0").

(** 2.75 = 11 * 2^-2 and -1.5 = -(3 * 2^-1) *)
Definition float_2_75 : Primitive :=
  PFloat (PyFloat (S754_finite false 11 (-2)) "2.75").
Definition float_minus_1_5 : Primitive :=
  PFloat (PyFloat (S754_finite true 3 (-1)) "-1.5").

Definition row (db sch tbl col : string) (index : Primitive) : PrimitiveDict :=
  list_to_map
    [("table_database", PStr db); ("table_schema", PStr sch);
     ("table_name", PStr tbl); ("column_name", PStr col);
     ("column_index", index); ("column_type", PStr "int")].

Definition row_upper : PrimitiveDict := row "D" "S" "T" "id" float_zero.
Definition row_lower : PrimitiveDict := row "d" "s" "t" "id" float_zero.
Definition row_second : PrimitiveDict := row "D" "S" "T" "name" float_2_75.
Definition row_negative : PrimitiveDict := row "D" "S" "T" "id" float_minus_1_5.

Definition row_no_schema : PrimitiveDict :=
  list_to_map [("table_database", PStr "D"); ("table_name", PStr "T")].

Definition row_no_index : PrimitiveDict :=
  list_to_map
    [("table_database", PStr "D"); ("table_schema", PStr "S");
     ("table_name", PStr "T"); ("column_name", PStr "id")].

(** The entries these rows make: no stat but [has_stats], which is false;
    the columns are of type [int] and have no comment. *)
Definition int_column (name : string) (index : Z) : ColumnMetadata.t :=
  ColumnMetadata.mk "int" None index name.

Definition entry (db sch tbl : string) (columns : list ColumnMetadata.t)
  : CatalogTable.t :=
  CatalogTable.mk
    (TableMetadata.mk (PStr db) (PStr sch) (PStr tbl)
       (list_to_map [("database", PStr db); ("schema", PStr sch);
                     ("name", PStr tbl)]))
    (list_to_map ((λ c, (ColumnMetadata.name c, c)) <$> columns))
    {["has_stats" := has_stats false]} None.

Definition catalog_upper : Catalog :=
  {[("D", "S", "T") := entry "D" "S" "T" [int_column "id" 0]]}.
Definition catalog_lower : Catalog :=
  {[("d", "s", "t") := entry "d" "s" "t" [int_column "id" 0]]}.
Definition catalog_both_cases : Catalog :=
  <[("d", "s", "t") := entry "d" "s" "t" [int_column "id" 0]]> catalog_upper.
Definition catalog_two_columns : Catalog :=
  {[("D", "S", "T") := entry "D" "S" "T" [int_column "id" 0; int_column "name" 2]]}.

(** The stat [size] is whole and shown; the label of [bad] is a number. *)
Definition stats_one_invalid : PrimitiveDict :=
  list_to_map
    [("size:label", PStr "Size"); ("size:value", PInt 128);
     ("size:description", PStr "Size of the table in MB");
     ("size:include", PBool true);
     ("bad:label", PInt 0); ("bad:value", PInt 1);
     ("bad:description", PStr "malformed"); ("bad:include", PBool true)].

Definition stats_size_only : StatsDict :=
  <["has_stats" := has_stats true]>
    {["size" := StatsItem.mk "size" "Size" (PInt 128)
                  "Size of the table in MB" true]}.

(** The stat [size] has a label and nothing else. *)
Definition stats_missing : PrimitiveDict :=
  list_to_map [("size:label", PStr "Size")].

(** The stat [size] is whole and shown; [rows] has a label and nothing
    else. *)
Definition stats_partial : PrimitiveDict :=
  list_to_map
    [("size:label", PStr "Size"); ("size:value", PInt 128);
     ("size:description", PStr "Size of the table in MB");
     ("size:include", PBool true);
     ("rows:label", PStr "Rows")].

(** Two rows of the table d.s.t, the second spelling it D.S.T, with
    different owners and different columns; and the entries they make. *)
Definition row_owner_alice : PrimitiveDict :=
  <["table_owner" := PStr "alice"]> row_lower.
Definition row_owner_bob : PrimitiveDict :=
  <["table_owner" := PStr "bob"]> row_second.

Definition entry_owned (db sch tbl owner : string)
    (columns : list ColumnMetadata.t) : CatalogTable.t :=
  CatalogTable.mk
    (TableMetadata.mk (PStr db) (PStr sch) (PStr tbl)
       (list_to_map [("database", PStr db); ("schema", PStr sch);
                     ("name", PStr tbl); ("owner", PStr owner)]))
    (list_to_map ((λ c, (ColumnMetadata.name c, c)) <$> columns))
    {["has_stats" := has_stats false]} None.

(** A catalog with D.S.T, and with X.Y.Z and x.y.z, which no node of
    [manifest_two] points at. *)
Definition rows_unmatched_collision : list PrimitiveDict :=
  [row_upper; row "X" "Y" "Z" "id" float_zero; row "x" "y" "z" "id" float_zero].
Definition catalog_unmatched_collision : Catalog :=
  <[("x", "y", "z") := entry "x" "y" "z" [int_column "id" 0]]>
    (<[("X", "Y", "Z") := entry "X" "Y" "Z" [int_column "id" 0]]> catalog_upper).

Definition manifest_one : Manifest :=
  list_to_map [("model.a", mkNode "D" "S" "T")].

Definition manifest_two : Manifest :=
  list_to_map [("model.a", mkNode "D" "S" "T"); ("source.a", mkNode "d" "s" "t")].

(** C1, the claim as it stands fails: a stat id with a sub-key missing is
    not dropped, [format_stats] raises. *)
Lemma format_stats_missing_subkey_raises :
  "size" ∈ base_keys stats_missing ∧
  stats_missing !! "size:value" = None ∧
  format_stats stats_missing = Raise (KeyError "size:value").
Proof. split_and!; by_compute. Qed.

Lemma format_stats_invalid_dropped_witness :
  complete stats_one_invalid = true ∧
  parse_stat stats_one_invalid "bad" = Raise ValidationError ∧
  format_stats stats_one_invalid = Ok stats_size_only ∧
  stats_size_only !! "bad" = None ∧
  format_stats (without_id "bad" stats_one_invalid) = Ok stats_size_only.
Proof.
  assert (Hc : complete stats_one_invalid = true) by by_compute.
  assert (Hbad : parse_stat stats_one_invalid "bad" = Raise ValidationError)
    by by_compute.
  assert (Hval : format_stats stats_one_invalid = Ok stats_size_only)
    by by_compute.
  split; [exact Hc|]. split; [exact Hbad|]. split; [exact Hval|].
  destruct (proj1 (format_stats_invalid_dropped_missing_raised stats_one_invalid) Hc)
    as (r & Hr & Hall).
  rewrite Hval in Hr. injection Hr as <-.
  destruct (Hall "bad" Hbad) as [Hnone Hsame].
  split; [by apply Hnone|exact Hsame].
Defined.

(** C4, the claim as it stands fails: a mapping in which the stat [size]
    is whole and shown, but [rows] has a label only, has no result, and so
    no entry [has_stats]. *)
Lemma format_stats_partial_no_has_stats :
  parse_stat stats_partial "size" =
    Ok (StatsItem.mk "size" "Size" (PInt 128) "Size of the table in MB" true) ∧
  complete stats_partial = false ∧
  format_stats stats_partial = Raise (KeyError "rows:value").
Proof. split_and!; by_compute. Qed.

Lemma format_stats_complete_has_stats_witness :
  complete stats_one_invalid = true ∧
  ∃ (r : StatsDict) (b : bool) (item : StatsItem.t),
    format_stats stats_one_invalid = Ok r ∧
    r !! "has_stats" = Some item ∧
    StatsItem.id item = "has_stats" ∧
    StatsItem.include item = false ∧
    StatsItem.value item = PBool b ∧
    (b = true ↔ ∃ key stat, key ∈ base_keys stats_one_invalid ∧
                            parse_stat stats_one_invalid key = Ok stat ∧
                            StatsItem.include stat = true) ∧
    (∀ k item', r !! k = Some item' →
                StatsItem.id item' = "has_stats" → k = "has_stats").
Proof.
  split; [by_compute|].
  apply (format_stats_complete_has_stats stats_one_invalid). by_compute.
Defined.

(** C2, the claim as it stands fails: two rows whose identity fields
    differ in letter case only make two entries. *)
Lemma rows_differing_in_case_not_grouped :
  Text.lower "D" = "d" ∧ Text.lower "S" = "s" ∧ Text.lower "T" = "t" ∧
  Catalog_init [row_upper; row_lower] = Ok catalog_both_cases ∧
  size catalog_both_cases = 2.
Proof. split_and!; by_compute. Qed.

Lemma add_column_groups_by_stringified_key_witness :
  add_column row_second catalog_lower =
    (Ok (), <[("D", "S", "T") := entry "D" "S" "T" [int_column "name" 2]]> catalog_lower) ∧
  catalog_key row_second = Ok ("D", "S", "T") ∧
  (∃ table column,
     column_of row_second = Ok column ∧
     (<[("D", "S", "T") := entry "D" "S" "T" [int_column "name" 2]]> catalog_lower)
       !! ("D", "S", "T") = Some table ∧
     CatalogTable.columns table !! ColumnMetadata.name column = Some column) ∧
  (∀ key, key ≠ ("D", "S", "T") →
     (<[("D", "S", "T") := entry "D" "S" "T" [int_column "name" 2]]> catalog_lower)
       !! key = catalog_lower !! key).
Proof.
  split; [by_compute|].
  apply (add_column_groups_by_stringified_key row_second catalog_lower _
           (PStr "D") (PStr "S") (PStr "T")); by_compute.
Defined.

(** C3, the claim as it stands fails: with one node in the manifest, so
    that no two of its nodes share a unique id, [make_unique_id_map]
    raises on the catalog of the two rows that differ in letter case. *)
Lemma one_manifest_entry_ambiguous :
  size manifest_one = 1 ∧
  Catalog_init [row_upper; row_lower] = Ok catalog_both_cases ∧
  make_unique_id_map catalog_both_cases manifest_one =
    Raise (AmbiguousCatalogMatch "model.a").
Proof. split_and!; by_compute. Qed.

Lemma make_unique_id_map_raises_witness :
  make_unique_id_map catalog_both_cases manifest_one =
    Raise (AmbiguousCatalogMatch "model.a") ∧
  ambiguous catalog_both_cases manifest_one.
Proof.
  assert (Hraise : make_unique_id_map catalog_both_cases manifest_one =
                     Raise (AmbiguousCatalogMatch "model.a")) by by_compute.
  split; [exact Hraise|].
  apply (proj1 (make_unique_id_map_raises_iff catalog_both_cases manifest_one)).
  eexists. exact Hraise.
Defined.

(** C7, the claim as it stands fails: [model.a] and [source.a] point at
    the normalized key of the entry D.S.T, and [make_unique_id_map] raises,
    the catalog having the entry d.s.t as well. *)
Lemma fan_out_with_case_collision_raises :
  Catalog_init [row_upper; row_lower] = Ok catalog_both_cases ∧
  catalog_both_cases !! ("D", "S", "T") =
    Some (entry "D" "S" "T" [int_column "id" 0]) ∧
  manifest_two !! "model.a" = Some (mkNode "D" "S" "T") ∧
  manifest_two !! "source.a" = Some (mkNode "d" "s" "t") ∧
  mapping_key (mkNode "D" "S" "T") =
    CatalogTable.key (entry "D" "S" "T" [int_column "id" 0]) ∧
  mapping_key (mkNode "d" "s" "t") =
    CatalogTable.key (entry "D" "S" "T" [int_column "id" 0]) ∧
  ∃ unique_id,
    make_unique_id_map catalog_both_cases manifest_two =
      Raise (AmbiguousCatalogMatch unique_id).
Proof.
  split_and!; [by_compute..|]. exists "source.a". by_compute.
Qed.

Lemma make_unique_id_map_fan_out_witness :
  Catalog_init rows_unmatched_collision = Ok catalog_unmatched_collision ∧
  ¬ ambiguous catalog_unmatched_collision manifest_two ∧
  ∃ nodes table1 table2,
    make_unique_id_map catalog_unmatched_collision manifest_two = Ok nodes ∧
    nodes !! "model.a" = Some table1 ∧ nodes !! "source.a" = Some table2 ∧
    table1 = CatalogTable.replace_unique_id
               (entry "D" "S" "T" [int_column "id" 0]) "model.a" ∧
    table2 = CatalogTable.replace_unique_id
               (entry "D" "S" "T" [int_column "id" 0]) "source.a" ∧
    CatalogTable.metadata table1 = CatalogTable.metadata table2 ∧
    CatalogTable.columns table1 = CatalogTable.columns table2 ∧
    CatalogTable.stats table1 = CatalogTable.stats table2 ∧
    CatalogTable.metadata table1 =
      CatalogTable.metadata (entry "D" "S" "T" [int_column "id" 0]) ∧
    CatalogTable.columns table1 =
      CatalogTable.columns (entry "D" "S" "T" [int_column "id" 0]) ∧
    CatalogTable.stats table1 =
      CatalogTable.stats (entry "D" "S" "T" [int_column "id" 0]).
Proof.
  assert (Hna : ¬ ambiguous catalog_unmatched_collision manifest_two)
    by by_compute.
  split; [by_compute|]. split; [exact Hna|].
  refine (proj1 (make_unique_id_map_fan_out catalog_unmatched_collision
            manifest_two ("D", "S", "T") (entry "D" "S" "T" [int_column "id" 0])
            "model.a" "source.a" (mkNode "D" "S" "T") (mkNode "d" "s" "t")
            _ _ _ _ _ _) Hna); by_compute.
Defined.

(** C6, the claim as it stands fails: of two rows of one physical key,
    d.s.t, the second spelt D.S.T, each makes an entry of its own; the
    entry D.S.T has the metadata of the second row, not those of the
    first, and the two columns are not under one entry. *)
Lemma rows_of_one_physical_key_split :
  Text.lower "D" = "d" ∧ Text.lower "S" = "s" ∧ Text.lower "T" = "t" ∧
  catalog_key row_owner_alice = Ok ("d", "s", "t") ∧
  catalog_key row_owner_bob = Ok ("D", "S", "T") ∧
  build_catalog_table row_owner_alice = Ok (entry_owned "d" "s" "t" "alice" []) ∧
  Catalog_init [row_owner_alice; row_owner_bob] =
    Ok (<[("D", "S", "T") := entry_owned "D" "S" "T" "bob" [int_column "name" 2]]>
          {[("d", "s", "t") := entry_owned "d" "s" "t" "alice" [int_column "id" 0]]}) ∧
  CatalogTable.metadata (entry_owned "D" "S" "T" "bob" [int_column "name" 2]) ≠
    CatalogTable.metadata (entry_owned "d" "s" "t" "alice" []) ∧
  CatalogTable.columns (entry_owned "d" "s" "t" "alice" [int_column "id" 0])
    !! "name" = None.
Proof. split_and!; by_compute. Qed.

Lemma first_row_fixes_metadata_and_stats_witness :
  Catalog_init [row_lower; row_upper; row_second] =
    Ok (<[("d", "s", "t") := entry "d" "s" "t" [int_column "id" 0]]> catalog_two_columns) ∧
  ∃ (before : list PrimitiveDict) r after table0,
    [row_lower; row_upper; row_second] = before ++ r :: after ∧
    Forall (λ row, catalog_key row ≠ Ok ("D", "S", "T")) before ∧
    catalog_key r = Ok ("D", "S", "T") ∧
    build_catalog_table r = Ok table0 ∧
    CatalogTable.metadata (entry "D" "S" "T" [int_column "id" 0; int_column "name" 2]) =
      CatalogTable.metadata table0 ∧
    CatalogTable.stats (entry "D" "S" "T" [int_column "id" 0; int_column "name" 2]) =
      CatalogTable.stats table0 ∧
    CatalogTable.columns (entry "D" "S" "T" [int_column "id" 0; int_column "name" 2]) =
      columns_for ("D", "S", "T") [row_lower; row_upper; row_second].
Proof.
  split; [by_compute|].
  apply (first_row_fixes_metadata_and_stats [row_lower; row_upper; row_second]
           (<[("d", "s", "t") := entry "d" "s" "t" [int_column "id" 0]]>
              catalog_two_columns)); by_compute.
Defined.

Lemma add_column_missing_identity_field_witness :
  ∃ field, field ∈ identity_fields ∧ row_no_schema !! field = None ∧
    get_table row_no_schema catalog_upper =
      (Raise (CompilationException field), catalog_upper) ∧
    add_column row_no_schema catalog_upper =
      (Raise (CompilationException field), catalog_upper).
Proof.
  apply (add_column_missing_identity_field row_no_schema catalog_upper).
  exists "table_schema". split; by_compute.
Defined.

(** C9, the claim as it stands fails: the index -1.5, a number below
    2^53, is stored as -1, which is negative. *)
Lemma negative_index_kept :
  row_negative !! "column_index" = Some float_minus_1_5 ∧
  numeric_value float_minus_1_5 = Some ((-3)%Z, 2%Z) ∧
  add_column row_negative ∅ =
    (Ok (), {[("D", "S", "T") := entry "D" "S" "T" [int_column "id" (-1)]]}) ∧
  (ColumnMetadata.index (int_column "id" (-1)) < 0)%Z.
Proof. split_and!; by_compute. Qed.

Lemma add_column_index_truncated_witness :
  get_table row_second catalog_upper =
    (Ok (("D", "S", "T"), entry "D" "S" "T" [int_column "id" 0]), catalog_upper) ∧
  numeric_value float_2_75 = Some (11%Z, 4%Z) ∧
  ∃ self' table' column,
    add_column row_second catalog_upper = (Ok (), self') ∧
    self' !! ("D", "S", "T") = Some table' ∧
    CatalogTable.columns table' !! "name" = Some column ∧
    ColumnMetadata.name column = "name" ∧
    ColumnMetadata.index column = (11 ÷ 4)%Z ∧
    (0 ≤ ColumnMetadata.index column)%Z.
Proof.
  split; [by_compute|]. split; [by_compute|].
  apply (add_column_index_truncated row_second catalog_upper catalog_upper
           ("D", "S", "T") (entry "D" "S" "T" [int_column "id" 0])
           float_2_75 11 4 "name" "int"); by_compute.
Defined.


(** The example of the design document, end to end. *)
Example end_to_end :
  Catalog_init [row_upper] = Ok catalog_upper ∧
  make_unique_id_map catalog_upper manifest_one =
    Ok {["model.a" := CatalogTable.replace_unique_id
                        (entry "D" "S" "T" [int_column "id" 0]) "model.a"]}.
Proof. split; by_compute. Qed.


(** * Further properties of the code *)

(** ** get_stripped_prefix *)

Lemma string_app_assoc p q k : (p +:+ q) +:+ k = p +:+ (q +:+ k).
Proof.
  induction p as [|a p IH]; [done|]. rewrite !Text.app_cons. by f_equal.
Qed.

(** X1: [get_stripped_prefix] holds under [k] what the source holds under
    [prefix + k], and nothing else; with the empty prefix it returns the
    source, and stripping one prefix and then another is stripping the two
    joined. *)
Theorem get_stripped_prefix_composes (source : PrimitiveDict) (prefix : string) :
  (∀ k, get_stripped_prefix source prefix !! k = source !! (prefix +:+ k)) ∧
  get_stripped_prefix source "" = source ∧
  ∀ prefix', get_stripped_prefix (get_stripped_prefix source prefix) prefix' =
             get_stripped_prefix source (prefix +:+ prefix').
Proof.
  split_and!.
  - apply get_stripped_prefix_lookup.
  - apply map_eq. intros k. by rewrite get_stripped_prefix_lookup.
  - intros prefix'. apply map_eq. intros k.
    by rewrite !get_stripped_prefix_lookup, string_app_assoc.
Qed.

(** X2: [get_stripped_prefix] returns the empty dict exactly when no key
    of the source starts with the prefix; in particular on the empty
    source. *)
Theorem get_stripped_prefix_empty_iff (source : PrimitiveDict) (prefix : string) :
  get_stripped_prefix source prefix = ∅ ↔
  ∀ k, is_Some (source !! k) → Text.startswith prefix k = false.
Proof.
  split.
  - intros Hempty k [v Hk].
    destruct (Text.startswith prefix k) eqn:Hstart; [|done].
    apply Text.startswith_slice in Hstart.
    assert (get_stripped_prefix source prefix
              !! Text.slice_from (String.length prefix) k = Some v) as Hres.
    { by rewrite get_stripped_prefix_lookup, <-Hstart. }
    by rewrite Hempty, lookup_empty in Hres.
  - intros Hnone. apply map_eq. intros k.
    rewrite get_stripped_prefix_lookup, lookup_empty.
    destruct (source !! (prefix +:+ k)) as [v|] eqn:Hk; [|done].
    assert (Text.startswith prefix (prefix +:+ k) = false) as Hstart
      by (apply Hnone; eauto).
    by rewrite Text.startswith_app in Hstart.
Qed.

(** ** format_stats, build_catalog_table *)

(** X3: in the result of [format_stats], an entry other than [has_stats]
    is there exactly when its key is a stat id of the mapping that parses
    to it and it has [include] true; its id is its key.  A stat with
    [include] false is never in the result. *)
Theorem format_stats_entries (stats : PrimitiveDict) (r : StatsDict) :
  format_stats stats = Ok r →
  ∀ key item,
    key ≠ "has_stats" →
    (r !! key = Some item ↔
     key ∈ base_keys stats ∧ parse_stat stats key = Ok item ∧
     StatsItem.include item = true) ∧
    (r !! key = Some item → StatsItem.id item = key).
Proof.
  intros (_ & collector & Hlook & ->)%format_stats_Ok key item Hne.
  rewrite lookup_insert_ne by done. rewrite Hlook.
  assert (Hiff : (if decide (key ∈ base_keys stats)
                  then shown_stat stats key else None) = Some item ↔
                 key ∈ base_keys stats ∧ parse_stat stats key = Ok item ∧
                 StatsItem.include item = true).
  { unfold shown_stat. destruct (decide (key ∈ base_keys stats)) as [Hin|Hin].
    - destruct (parse_stat stats key) as [item'|e].
      + destruct (StatsItem.include item') eqn:Hinc.
        * split; [by intros [= ->]|by intros (_ & [= ->] & _)].
        * split; [done|]. intros (_ & [= ->] & ?). congruence.
      + split; [done|]. by intros (_ & ? & _).
    - split; [done|]. by intros (? & _). }
  split; [done|]. intros (_ & Hparse & _)%Hiff. by eapply parse_stat_id.
Qed.

Lemma format_stats_entries_witness :
  format_stats stats_one_invalid = Ok stats_size_only ∧
  ∀ key item,
    key ≠ "has_stats" →
    (stats_size_only !! key = Some item ↔
     key ∈ base_keys stats_one_invalid ∧
     parse_stat stats_one_invalid key = Ok item ∧
     StatsItem.include item = true) ∧
    (stats_size_only !! key = Some item → StatsItem.id item = key).
Proof.
  split; [by_compute|].
  apply (format_stats_entries stats_one_invalid stats_size_only). by_compute.
Defined.

(** The keys of a row that [build_catalog_table] reads. *)
Definition table_part (data : PrimitiveDict) : PrimitiveDict :=
  filter (λ kv, Text.startswith "table_" kv.1 = true ∨
                Text.startswith "stats:" kv.1 = true) data.

Lemma table_part_lookup data prefix k :
  prefix = "table_" ∨ prefix = "stats:" →
  table_part data !! (prefix +:+ k) = data !! (prefix +:+ k).
Proof.
  intros Hprefix.
  assert (Text.startswith "table_" (prefix +:+ k) = true ∨
          Text.startswith "stats:" (prefix +:+ k) = true) as Hstart.
  { destruct Hprefix as [->| ->]; [left|right]; apply Text.startswith_app. }
  unfold table_part. rewrite map_lookup_filter.
  destruct (data !! (prefix +:+ k)) as [v|]; [|done].
  apply option_guard_True. exact Hstart.
Qed.

(** X4: the table that [build_catalog_table] makes of a row, or the
    exception it raises, depends on the keys of the row that start with
    [table_] or [stats:] only: two rows that agree on these keys give the
    same outcome, whatever their [column_] fields. *)
Theorem build_catalog_table_reads_table_part (data1 data2 : PrimitiveDict) :
  table_part data1 = table_part data2 →
  build_catalog_table data1 = build_catalog_table data2.
Proof.
  intros Hpart.
  assert (Hstrip : ∀ prefix, prefix = "table_" ∨ prefix = "stats:" →
            get_stripped_prefix data1 prefix = get_stripped_prefix data2 prefix).
  { intros prefix Hprefix. apply map_eq. intros k.
    rewrite !get_stripped_prefix_lookup.
    rewrite <-(table_part_lookup data1), <-(table_part_lookup data2) by done.
    by rewrite Hpart. }
  unfold build_catalog_table. by rewrite !Hstrip by auto.
Qed.

Lemma build_catalog_table_reads_table_part_witness :
  table_part row_upper = table_part row_second ∧
  row_upper ≠ row_second ∧
  build_catalog_table row_upper = build_catalog_table row_second.
Proof.
  assert (Hpart : table_part row_upper = table_part row_second) by by_compute.
  split; [exact Hpart|]. split; [by_compute|].
  exact (build_catalog_table_reads_table_part row_upper row_second Hpart).
Defined.

(** ** get_table, add_column, Catalog *)

Lemma get_table_Raise data self self' e :
  get_table data self = (Raise e, self') → self' = self.
Proof.
  unfold get_table.
  destruct (catalog_key data) as [key|e']; [|destruct e'; by intros [= _ <-]].
  destruct (self !! key); [done|].
  destruct (build_catalog_table data); [done|by intros [= _ <-]].
Qed.

(** The converse of [add_column_Ok]. *)
Lemma add_column_from data self key table column :
  catalog_key data = Ok key → column_of data = Ok column →
  self !! key = Some table ∨
    self !! key = None ∧ build_catalog_table data = Ok table →
  add_column data self =
    (Ok (), <[key := CatalogTable.set_column table column]> self).
Proof.
  intros Hkey Hcol [Hself|[Hself Hbuild]].
  - by apply add_column_found.
  - unfold add_column.
    rewrite (get_table_new _ _ _ Hkey Hself), Hbuild, Hcol.
    by rewrite insert_insert_eq.
Qed.

(** What [add_column] leaves when it raises. *)
Lemma add_column_Raise data self self' e :
  add_column data self = (Raise e, self') →
  self' = self ∨
  ∃ key table,
    catalog_key data = Ok key ∧ self !! key = None ∧
    build_catalog_table data = Ok table ∧ column_of data = Raise e ∧
    self' = <[key := table]> self.
Proof.
  unfold add_column.
  destruct (get_table data self) as [[[key table]|e'] self1] eqn:Hget.
  - destruct (column_of data) as [column|e'] eqn:Hcol; [done|].
    intros [= <- <-]. apply get_table_Ok in Hget as (Hkey & _ & Hcases).
    destruct Hcases as [[_ ->]|(Hself & Hbuild & ->)]; [by left|].
    right. by exists key, table.
  - intros [= <- <-]. left. by eapply get_table_Raise.
Qed.

(** An entry keeps its metadata, its stats and its unique id, and the
    names of its columns. *)
Definition entry_kept (table table' : CatalogTable.t) : Prop :=
  CatalogTable.metadata table' = CatalogTable.metadata table ∧
  CatalogTable.stats table' = CatalogTable.stats table ∧
  CatalogTable.unique_id table' = CatalogTable.unique_id table ∧
  dom (CatalogTable.columns table) ⊆ dom (CatalogTable.columns table').

Lemma entry_kept_refl table : entry_kept table table.
Proof. by unfold entry_kept. Qed.

Lemma entry_kept_trans t1 t2 t3 :
  entry_kept t1 t2 → entry_kept t2 t3 → entry_kept t1 t3.
Proof.
  unfold entry_kept. intros (-> & -> & -> & ?) (-> & -> & -> & ?).
  split_and!; [done..|set_solver].
Qed.

Lemma add_column_keeps data self res self' key table :
  add_column data self = (res, self') → self !! key = Some table →
  ∃ table', self' !! key = Some table' ∧ entry_kept table table'.
Proof.
  intros Hadd Hself. destruct res as [[]|e].
  - apply add_column_Ok in Hadd
      as (key' & table0 & column & Hkey & Hcol & Hfrom & ->).
    destruct (decide (key' = key)) as [->|Hne].
    + rewrite lookup_insert_eq. eexists. split; [done|].
      destruct Hfrom as [Hself'|[Hself' _]]; [|congruence].
      assert (table0 = table) as -> by congruence.
      unfold entry_kept, CatalogTable.set_column; simpl.
      split_and!; [done..|]. rewrite dom_insert_L. set_solver.
    + rewrite lookup_insert_ne by done. eauto using entry_kept_refl.
  - apply add_column_Raise in Hadd
      as [->|(key' & table0 & _ & Hnone & _ & _ & ->)].
    + eauto using entry_kept_refl.
    + rewrite lookup_insert_ne by congruence. eauto using entry_kept_refl.
Qed.

(** X5: [get_table] builds the entry of a key once: asked again for the
    same row it returns the same entry and leaves the catalog as it is;
    what it adds to the catalog is the key of the row, and the entries that
    were there stay as they were. *)
Theorem get_table_stable
    (data : PrimitiveDict) (self self' : Catalog) (key : CatalogKey)
    (table : CatalogTable.t) :
  get_table data self = (Ok (key, table), self') →
  get_table data self' = (Ok (key, table), self') ∧
  (∀ k t, self !! k = Some t → self' !! k = Some t) ∧
  dom self' = dom self ∪ {[key]}.
Proof.
  intros (Hkey & Hself' & Hcases)%get_table_Ok. split_and!.
  - by apply get_table_found.
  - intros k t Hk. destruct Hcases as [[_ ->]|(Hnone & _ & ->)]; [done|].
    rewrite lookup_insert_ne; [done|]. congruence.
  - destruct Hcases as [[Hself ->]|(_ & _ & ->)].
    + apply elem_of_dom_2 in Hself. set_solver.
    + rewrite dom_insert_L. set_solver.
Qed.

Lemma get_table_stable_witness :
  get_table row_second catalog_lower =
    (Ok (("D", "S", "T"), entry "D" "S" "T" []),
     <[("D", "S", "T") := entry "D" "S" "T" []]> catalog_lower) ∧
  get_table row_second (<[("D", "S", "T") := entry "D" "S" "T" []]> catalog_lower) =
    (Ok (("D", "S", "T"), entry "D" "S" "T" []),
     <[("D", "S", "T") := entry "D" "S" "T" []]> catalog_lower) ∧
  (∀ k t, catalog_lower !! k = Some t →
     (<[("D", "S", "T") := entry "D" "S" "T" []]> catalog_lower) !! k = Some t) ∧
  dom (<[("D", "S", "T") := entry "D" "S" "T" []]> catalog_lower) =
    dom catalog_lower ∪ {[("D", "S", "T")]}.
Proof.
  assert (Hget : get_table row_second catalog_lower =
    (Ok (("D", "S", "T"), entry "D" "S" "T" []),
     <[("D", "S", "T") := entry "D" "S" "T" []]> catalog_lower)) by by_compute.
  split; [exact Hget|]. exact (get_table_stable _ _ _ _ _ Hget).
Defined.

(** X6: when [add_column] raises, the entries that were in the catalog are
    as they were, and the catalog is the former one, or the former one
    with the entry built from the row, of no column, added under the key of
    the row; the latter when the exception comes from the column fields. *)
Theorem add_column_raise_keeps_entries
    (data : PrimitiveDict) (self self' : Catalog) (e : exn) :
  add_column data self = (Raise e, self') →
  (∀ k t, self !! k = Some t → self' !! k = Some t) ∧
  (self' = self ∨
   ∃ key table,
     catalog_key data = Ok key ∧ self !! key = None ∧
     build_catalog_table data = Ok table ∧ column_of data = Raise e ∧
     CatalogTable.columns table = ∅ ∧
     self' = <[key := table]> self).
Proof.
  intros Hadd. pose proof (add_column_Raise _ _ _ _ Hadd) as Hcases. split.
  - intros k t Hk.
    destruct Hcases as [->|(key & table & _ & Hnone & _ & _ & ->)]; [done|].
    rewrite lookup_insert_ne; [done|]. congruence.
  - destruct Hcases as [->|(key & table & ? & ? & Hbuild & ? & ->)]; [by left|].
    right. exists key, table. split_and!; try done.
    by eapply build_catalog_table_columns.
Qed.

Lemma add_column_raise_keeps_entries_witness :
  add_column row_no_index catalog_lower =
    (Raise (KeyError "index"),
     <[("D", "S", "T") := entry "D" "S" "T" []]> catalog_lower) ∧
  (∀ k t, catalog_lower !! k = Some t →
     (<[("D", "S", "T") := entry "D" "S" "T" []]> catalog_lower) !! k = Some t) ∧
  (<[("D", "S", "T") := entry "D" "S" "T" []]> catalog_lower = catalog_lower ∨
   ∃ key table,
     catalog_key row_no_index = Ok key ∧ catalog_lower !! key = None ∧
     build_catalog_table row_no_index = Ok table ∧
     column_of row_no_index = Raise (KeyError "index") ∧
     CatalogTable.columns table = ∅ ∧
     <[("D", "S", "T") := entry "D" "S" "T" []]> catalog_lower =
       <[key := table]> catalog_lower).
Proof.
  assert (Hadd : add_column row_no_index catalog_lower =
    (Raise (KeyError "index"),
     <[("D", "S", "T") := entry "D" "S" "T" []]> catalog_lower)) by by_compute.
  split; [exact Hadd|]. exact (add_column_raise_keeps_entries _ _ _ _ Hadd).
Defined.

(** X7: the loop of the constructor never deletes an entry and never
    changes the metadata, the stats or the unique id of one, whether it
    ends or raises; the names of the columns of an entry only grow. *)
Theorem add_columns_keeps_entries
    (rows : list PrimitiveDict) (self self' : Catalog) (res : result ())
    (key : CatalogKey) (table : CatalogTable.t) :
  add_columns rows self = (res, self') →
  self !! key = Some table →
  ∃ table', self' !! key = Some table' ∧
    CatalogTable.metadata table' = CatalogTable.metadata table ∧
    CatalogTable.stats table' = CatalogTable.stats table ∧
    CatalogTable.unique_id table' = CatalogTable.unique_id table ∧
    dom (CatalogTable.columns table) ⊆ dom (CatalogTable.columns table').
Proof.
  revert self table. induction rows as [|r rows IH]; intros self table; simpl.
  - intros [= <- <-] Hself. exists table. by split_and!.
  - destruct (add_column r self) as [[[]|e] self1] eqn:Hr.
    + intros Hrest Hself.
      destruct (add_column_keeps _ _ _ _ _ _ Hr Hself) as (t1 & Hself1 & Hkept1).
      destruct (IH _ _ Hrest Hself1) as (t2 & Hself2 & Hkept2).
      exists t2. split; [done|]. by apply (entry_kept_trans _ t1).
    + intros [= <- <-] Hself.
      destruct (add_column_keeps _ _ _ _ _ _ Hr Hself) as (t1 & Hself1 & Hkept1).
      by exists t1.
Qed.

Lemma add_columns_keeps_entries_witness :
  add_columns [row_second; row_no_schema; row_lower] catalog_upper =
    (Raise (CompilationException "table_schema"), catalog_two_columns) ∧
  ∃ table', catalog_two_columns !! ("D", "S", "T") = Some table' ∧
    CatalogTable.metadata table' =
      CatalogTable.metadata (entry "D" "S" "T" [int_column "id" 0]) ∧
    CatalogTable.stats table' =
      CatalogTable.stats (entry "D" "S" "T" [int_column "id" 0]) ∧
    CatalogTable.unique_id table' =
      CatalogTable.unique_id (entry "D" "S" "T" [int_column "id" 0]) ∧
    dom (CatalogTable.columns (entry "D" "S" "T" [int_column "id" 0])) ⊆
      dom (CatalogTable.columns table').
Proof.
  assert (Hrun : add_columns [row_second; row_no_schema; row_lower] catalog_upper =
    (Raise (CompilationException "table_schema"), catalog_two_columns))
    by by_compute.
  split; [exact Hrun|].
  apply (add_columns_keeps_entries _ _ _ _ ("D", "S", "T") _ Hrun). by_compute.
Defined.

(** X8: of two rows of one key that write a column of the same name, the
    later one wins: after both, the entry has under that name the column
    of the second row, its other columns are those it had after the first
    row, no column is added, and the other entries of the catalog are as
    they were. *)
Theorem add_column_last_write_wins
    (r1 r2 : PrimitiveDict) (self self1 self2 : Catalog) (key : CatalogKey)
    (column1 column2 : ColumnMetadata.t) :
  add_column r1 self = (Ok (), self1) →
  add_column r2 self1 = (Ok (), self2) →
  catalog_key r1 = Ok key → catalog_key r2 = Ok key →
  column_of r1 = Ok column1 → column_of r2 = Ok column2 →
  ColumnMetadata.name column1 = ColumnMetadata.name column2 →
  ∃ table1 table2,
    self1 !! key = Some table1 ∧ self2 !! key = Some table2 ∧
    CatalogTable.columns table1 !! ColumnMetadata.name column1 = Some column1 ∧
    CatalogTable.columns table2 !! ColumnMetadata.name column1 = Some column2 ∧
    (∀ name, name ≠ ColumnMetadata.name column1 →
       CatalogTable.columns table2 !! name = CatalogTable.columns table1 !! name) ∧
    dom (CatalogTable.columns table2) = dom (CatalogTable.columns table1) ∧
    (∀ k, k ≠ key → self2 !! k = self1 !! k).
Proof.
  intros H1 H2 Hkey1 Hkey2 Hcol1 Hcol2 Hname.
  apply add_column_Ok in H1 as (k1 & t1 & c1 & Hk1 & Hc1 & _ & ->).
  assert (k1 = key) as -> by congruence.
  assert (c1 = column1) as -> by congruence.
  apply add_column_Ok in H2 as (k2 & t2 & c2 & Hk2 & Hc2 & Hfrom & ->).
  assert (k2 = key) as -> by congruence.
  assert (c2 = column2) as -> by congruence.
  rewrite lookup_insert_eq in Hfrom.
  destruct Hfrom as [[= <-]|[? _]]; [|done].
  eexists _, _. split; [apply lookup_insert_eq|]. split; [apply lookup_insert_eq|].
  unfold CatalogTable.set_column; simpl. rewrite <-Hname. split_and!.
  - apply lookup_insert_eq.
  - apply lookup_insert_eq.
  - intros name Hne. by rewrite lookup_insert_ne.
  - rewrite !dom_insert_L. set_solver.
  - intros k Hne. by rewrite lookup_insert_ne.
Qed.

Lemma add_column_last_write_wins_witness :
  add_column row_upper ∅ = (Ok (), catalog_upper) ∧
  add_column row_negative catalog_upper =
    (Ok (), {[("D", "S", "T") := entry "D" "S" "T" [int_column "id" (-1)]]}) ∧
  ∃ table1 table2,
    catalog_upper !! ("D", "S", "T") = Some table1 ∧
    ({[("D", "S", "T") := entry "D" "S" "T" [int_column "id" (-1)]]} : Catalog)
      !! ("D", "S", "T") = Some table2 ∧
    CatalogTable.columns table1 !! "id" = Some (int_column "id" 0) ∧
    CatalogTable.columns table2 !! "id" = Some (int_column "id" (-1)) ∧
    (∀ name, name ≠ "id" →
       CatalogTable.columns table2 !! name = CatalogTable.columns table1 !! name) ∧
    dom (CatalogTable.columns table2) = dom (CatalogTable.columns table1) ∧
    (∀ k, k ≠ ("D", "S", "T") →
       ({[("D", "S", "T") := entry "D" "S" "T" [int_column "id" (-1)]]} : Catalog)
         !! k = catalog_upper !! k).
Proof.
  split; [by_compute|]. split; [by_compute|].
  apply (add_column_last_write_wins row_upper row_negative ∅ catalog_upper _
           ("D", "S", "T") (int_column "id" 0) (int_column "id" (-1)));
    by_compute.
Defined.

(** X9: the constructor stops at the first row that raises: it raises the
    exception of that row, whatever rows come after it, and returns no
    catalog. *)
Theorem Catalog_init_first_failure
    (xs ys : list PrimitiveDict) (r : PrimitiveDict) (self self' : Catalog)
    (e : exn) :
  add_columns xs ∅ = (Ok (), self) →
  add_column r self = (Raise e, self') →
  Catalog_init (xs ++ r :: ys) = Raise e.
Proof.
  intros Hxs Hr. unfold Catalog_init. rewrite add_columns_app, Hxs. simpl.
  by rewrite Hr.
Qed.

Lemma Catalog_init_first_failure_witness :
  add_columns [row_upper] ∅ = (Ok (), catalog_upper) ∧
  add_column row_no_schema catalog_upper =
    (Raise (CompilationException "table_schema"), catalog_upper) ∧
  Catalog_init ([row_upper] ++ row_no_schema :: [row_lower]) =
    Raise (CompilationException "table_schema").
Proof.
  assert (H1 : add_columns [row_upper] ∅ = (Ok (), catalog_upper)) by by_compute.
  assert (H2 : add_column row_no_schema catalog_upper =
    (Raise (CompilationException "table_schema"), catalog_upper)) by by_compute.
  split; [exact H1|]. split; [exact H2|].
  exact (Catalog_init_first_failure _ [row_lower] _ _ _ _ H1 H2).
Defined.

(** X10: two rows of different keys can be fed in either order: when the
    one order gives a catalog, the other order gives the same catalog. *)
Theorem add_columns_swap_different_keys
    (r1 r2 : PrimitiveDict) (self self' : Catalog) (key1 key2 : CatalogKey) :
  catalog_key r1 = Ok key1 → catalog_key r2 = Ok key2 → key1 ≠ key2 →
  add_columns [r1; r2] self = (Ok (), self') →
  add_columns [r2; r1] self = (Ok (), self').
Proof.
  intros Hkey1 Hkey2 Hne. simpl.
  destruct (add_column r1 self) as [[[]|e] s1] eqn:H1; [|done].
  destruct (add_column r2 s1) as [[[]|e] s2] eqn:H2; [|done].
  intros [= <-].
  apply add_column_Ok in H1 as (k1 & t1 & c1 & Hk1 & Hc1 & Hfrom1 & ->).
  assert (k1 = key1) as -> by congruence.
  apply add_column_Ok in H2 as (k2 & t2 & c2 & Hk2 & Hc2 & Hfrom2 & ->).
  assert (k2 = key2) as -> by congruence.
  rewrite lookup_insert_ne in Hfrom2 by done.
  rewrite (add_column_from r2 self key2 t2 c2) by done.
  rewrite (add_column_from r1 _ key1 t1 c1);
    [|done..|by rewrite lookup_insert_ne].
  by rewrite insert_insert_ne.
Qed.

Lemma add_columns_swap_different_keys_witness :
  add_columns [row_upper; row_lower] ∅ = (Ok (), catalog_both_cases) ∧
  add_columns [row_lower; row_upper] ∅ = (Ok (), catalog_both_cases).
Proof.
  assert (H : add_columns [row_upper; row_lower] ∅ = (Ok (), catalog_both_cases))
    by by_compute.
  split; [exact H|].
  apply (add_columns_swap_different_keys row_upper row_lower ∅ _
           ("D", "S", "T") ("d", "s", "t")); [by_compute..|exact H].
Defined.

(** ** What a built catalog holds *)

(** The normalized form of a key of the catalog. *)
Definition normalize (key : CatalogKey) : CatalogKey :=
  (Text.lower key.1.1, Text.lower key.1.2, Text.lower key.2).

(** An entry under a key, as the constructor leaves it. *)
Definition entry_well_formed (key : CatalogKey) (table : CatalogTable.t) : Prop :=
  key = (py_str (TableMetadata.database (CatalogTable.metadata table)),
         py_str (TableMetadata.schema (CatalogTable.metadata table)),
         py_str (TableMetadata.name (CatalogTable.metadata table))) ∧
  CatalogTable.unique_id table = None ∧
  is_Some (CatalogTable.stats table !! "has_stats") ∧
  ∀ name column, CatalogTable.columns table !! name = Some column →
                 ColumnMetadata.name column = name.

Definition well_formed (self : Catalog) : Prop :=
  ∀ key table, self !! key = Some table → entry_well_formed key table.

Lemma build_catalog_table_well_formed data key table :
  catalog_key data = Ok key → build_catalog_table data = Ok table →
  entry_well_formed key table.
Proof.
  intros (db & sch & nm & Hdb & Hsch & Hnm & ->)%catalog_key_Ok.
  unfold build_catalog_table, TableMetadata.from_dict.
  rewrite !get_stripped_prefix_lookup.
  change ("table_" +:+ "database") with "table_database".
  change ("table_" +:+ "schema") with "table_schema".
  change ("table_" +:+ "name") with "table_name".
  rewrite Hdb, Hsch, Hnm. simpl.
  destruct (format_stats _) as [stats|e] eqn:Hstats; simpl; [|done].
  intros [= <-]. unfold entry_well_formed; simpl. split_and!; [done..| |done].
  apply format_stats_Ok in Hstats as (_ & collector & _ & ->).
  rewrite lookup_insert_eq. eauto.
Qed.

Lemma set_column_well_formed key table column :
  entry_well_formed key table →
  entry_well_formed key (CatalogTable.set_column table column).
Proof.
  intros (Hkey & Hid & Hstats & Hcols). unfold entry_well_formed; simpl.
  split_and!; [done..|]. intros name column'.
  destruct (decide (name = ColumnMetadata.name column)) as [->|Hne].
  - rewrite lookup_insert_eq. by intros [= <-].
  - rewrite lookup_insert_ne by done. apply Hcols.
Qed.

Lemma add_column_well_formed data self res self' :
  add_column data self = (res, self') → well_formed self → well_formed self'.
Proof.
  intros Hadd Hwf. destruct res as [[]|e].
  - apply add_column_Ok in Hadd
      as (key & table & column & Hkey & _ & Hfrom & ->).
    intros k t. destruct (decide (k = key)) as [->|Hne].
    + rewrite lookup_insert_eq. intros [= <-]. apply set_column_well_formed.
      destruct Hfrom as [Hself|[_ Hbuild]]; [by apply Hwf|].
      by eapply build_catalog_table_well_formed.
    + rewrite lookup_insert_ne by done. apply Hwf.
  - apply add_column_Raise in Hadd
      as [->|(key & table & Hkey & _ & Hbuild & _ & ->)]; [done|].
    intros k t. destruct (decide (k = key)) as [->|Hne].
    + rewrite lookup_insert_eq. intros [= <-].
      by eapply build_catalog_table_well_formed.
    + rewrite lookup_insert_ne by done. apply Hwf.
Qed.

Lemma add_columns_well_formed rows self res self' :
  add_columns rows self = (res, self') → well_formed self → well_formed self'.
Proof.
  revert self. induction rows as [|r rows IH]; intros self; simpl.
  - by intros [= <- <-].
  - destruct (add_column r self) as [[[]|e] self1] eqn:Hr.
    + intros Hrest Hwf. eapply IH; [done|]. by eapply add_column_well_formed.
    + intros [= <- <-] Hwf. by eapply add_column_well_formed.
Qed.

Lemma Catalog_init_well_formed rows self :
  Catalog_init rows = Ok self → well_formed self.
Proof.
  unfold Catalog_init.
  destruct (add_columns rows ∅) as [[[]|e] self1] eqn:Hloop; [|done].
  intros [= <-]. eapply add_columns_well_formed; [done|].
  intros k t. by rewrite lookup_empty.
Qed.

Lemma well_formed_key self key table :
  well_formed self → self !! key = Some table →
  CatalogTable.key table = normalize key.
Proof.
  intros Hwf Hself. destruct (Hwf _ _ Hself) as (-> & _). reflexivity.
Qed.

(** X11: in a catalog that the constructor returns, the key of an entry is
    the triple of the stringified database, schema and name of its
    metadata, so that the normalized key of the entry is its key in lower
    case; the entry has no unique id, it has the stat [has_stats], and each
    of its columns is under its own name. *)
Theorem Catalog_init_entries_well_formed
    (rows : list PrimitiveDict) (self : Catalog) (key : CatalogKey)
    (table : CatalogTable.t) :
  Catalog_init rows = Ok self →
  self !! key = Some table →
  key = (py_str (TableMetadata.database (CatalogTable.metadata table)),
         py_str (TableMetadata.schema (CatalogTable.metadata table)),
         py_str (TableMetadata.name (CatalogTable.metadata table))) ∧
  CatalogTable.key table = normalize key ∧
  CatalogTable.unique_id table = None ∧
  is_Some (CatalogTable.stats table !! "has_stats") ∧
  ∀ name column, CatalogTable.columns table !! name = Some column →
                 ColumnMetadata.name column = name.
Proof.
  intros Hwf%Catalog_init_well_formed Hself.
  pose proof (well_formed_key _ _ _ Hwf Hself) as Hkey.
  destruct (Hwf _ _ Hself) as (? & ? & ? & ?). by split_and!.
Qed.

Lemma Catalog_init_entries_well_formed_witness :
  Catalog_init [row_upper; row_second] = Ok catalog_two_columns ∧
  ("D", "S", "T") =
    (py_str (TableMetadata.database (CatalogTable.metadata
       (entry "D" "S" "T" [int_column "id" 0; int_column "name" 2]))),
     py_str (TableMetadata.schema (CatalogTable.metadata
       (entry "D" "S" "T" [int_column "id" 0; int_column "name" 2]))),
     py_str (TableMetadata.name (CatalogTable.metadata
       (entry "D" "S" "T" [int_column "id" 0; int_column "name" 2])))) ∧
  CatalogTable.key (entry "D" "S" "T" [int_column "id" 0; int_column "name" 2]) =
    normalize ("D", "S", "T") ∧
  CatalogTable.unique_id
    (entry "D" "S" "T" [int_column "id" 0; int_column "name" 2]) = None ∧
  is_Some (CatalogTable.stats
    (entry "D" "S" "T" [int_column "id" 0; int_column "name" 2]) !! "has_stats") ∧
  ∀ name column,
    CatalogTable.columns
      (entry "D" "S" "T" [int_column "id" 0; int_column "name" 2]) !! name
      = Some column →
    ColumnMetadata.name column = name.
Proof.
  assert (H : Catalog_init [row_upper; row_second] = Ok catalog_two_columns)
    by by_compute.
  split; [exact H|].
  apply (Catalog_init_entries_well_formed _ _ ("D", "S", "T") _ H). by_compute.
Defined.

(** X12: on a catalog that the constructor returns, [make_unique_id_map]
    raises exactly when two keys of the catalog are the same in lower case
    and a node of the manifest points at them; and when it returns, a node
    whose database, schema and identifier are, in lower case, those of a
    key of the catalog has its unique id in the result, with the entry of
    that key: the matching ignores letter case. *)
Theorem make_unique_id_map_ignores_case
    (rows : list PrimitiveDict) (self : Catalog) (manifest : Manifest) :
  Catalog_init rows = Ok self →
  ((∃ e, make_unique_id_map self manifest = Raise e) ↔
   ∃ key1 key2 unique_id node,
     key1 ≠ key2 ∧ is_Some (self !! key1) ∧ is_Some (self !! key2) ∧
     normalize key1 = normalize key2 ∧
     manifest !! unique_id = Some node ∧ mapping_key node = normalize key1) ∧
  (∀ nodes key table unique_id node,
     make_unique_id_map self manifest = Ok nodes →
     self !! key = Some table →
     manifest !! unique_id = Some node →
     mapping_key node = normalize key →
     nodes !! unique_id = Some (CatalogTable.replace_unique_id table unique_id)).
Proof.
  intros Hwf%Catalog_init_well_formed.
  pose proof (make_unique_id_map_cases self manifest) as Hcases.
  assert (Hamb : ambiguous self manifest ↔
    ∃ key1 key2 unique_id node,
      key1 ≠ key2 ∧ is_Some (self !! key1) ∧ is_Some (self !! key2) ∧
      normalize key1 = normalize key2 ∧
      manifest !! unique_id = Some node ∧ mapping_key node = normalize key1).
  { split.
    - intros (u & k1 & k2 & Hne & (t1 & n1 & Hs1 & Hn1 & Hm1)
                & (t2 & n2 & Hs2 & Hn2 & Hm2)).
      assert (n2 = n1) as -> by congruence.
      rewrite (well_formed_key _ _ _ Hwf Hs1) in Hm1.
      rewrite (well_formed_key _ _ _ Hwf Hs2) in Hm2.
      exists k1, k2, u, n1. split_and!; eauto; congruence.
    - intros (k1 & k2 & u & node & Hne & [t1 Hs1] & [t2 Hs2] & Hnorm & Hnode & Hkey).
      exists u, k1, k2. split; [done|]. split.
      + exists t1, node. by rewrite (well_formed_key _ _ _ Hwf Hs1).
      + exists t2, node. rewrite (well_formed_key _ _ _ Hwf Hs2). split_and!; congruence. }
  split.
  - rewrite <-Hamb. destruct (make_unique_id_map self manifest) as [nodes|e].
    + destruct Hcases as [Hno _]. split; [by intros [e ?]|done].
    + destruct Hcases as [Hyes _]. split; [done|eauto].
  - intros nodes key table u node Hres Hself Hnode Hkey.
    rewrite Hres in Hcases. destruct Hcases as [_ Hlook]. apply Hlook.
    exists key, table, node. split_and!; try done.
    by rewrite (well_formed_key _ _ _ Hwf Hself).
Qed.

Lemma make_unique_id_map_ignores_case_witness :
  Catalog_init [row_upper; row_second] = Ok catalog_two_columns ∧
  make_unique_id_map catalog_two_columns manifest_two =
    Ok (<["source.a" := CatalogTable.replace_unique_id
            (entry "D" "S" "T" [int_column "id" 0; int_column "name" 2]) "source.a"]>
        {["model.a" := CatalogTable.replace_unique_id
            (entry "D" "S" "T" [int_column "id" 0; int_column "name" 2]) "model.a"]}) ∧
  (<["source.a" := CatalogTable.replace_unique_id
       (entry "D" "S" "T" [int_column "id" 0; int_column "name" 2]) "source.a"]>
     {["model.a" := CatalogTable.replace_unique_id
       (entry "D" "S" "T" [int_column "id" 0; int_column "name" 2]) "model.a"]}
   : gmap string CatalogTable.t) !! "source.a" =
    Some (CatalogTable.replace_unique_id
            (entry "D" "S" "T" [int_column "id" 0; int_column "name" 2]) "source.a").
Proof.
  assert (H : Catalog_init [row_upper; row_second] = Ok catalog_two_columns)
    by by_compute.
  split; [exact H|]. split; [by_compute|].
  apply (proj2 (make_unique_id_map_ignores_case _ _ manifest_two H) _
           ("D", "S", "T") _ "source.a" (mkNode "d" "s" "t")); by_compute.
Defined.

(** ** The manifest side *)

Lemma ident_map_add_None ident_map item k :
  ident_map_add ident_map item !! k = None ↔
  ident_map !! k = None ∧ mapping_key item.2 ≠ k.
Proof.
  unfold ident_map_add.
  destruct (decide (mapping_key item.2 = k)) as [<-|Hne].
  - rewrite lookup_insert_eq. split; [done|]. by intros [_ ?].
  - rewrite lookup_insert_ne by done.
    destruct (ident_map !! mapping_key item.2);
      [|rewrite lookup_insert_ne by done]; tauto.
Qed.

Lemma ident_map_fold_None items ident_map k :
  foldl ident_map_add ident_map items !! k = None ↔
  ident_map !! k = None ∧ Forall (λ item, mapping_key item.2 ≠ k) items.
Proof.
  revert ident_map. induction items as [|item items IH]; intros ident_map; simpl.
  - split; [by intros ?; split; [|constructor]|by intros [? _]].
  - rewrite IH, ident_map_add_None, Forall_cons. tauto.
Qed.

(** X13: in the mapping that [get_unique_id_mapping] makes of the
    manifest, a key that is there has the unique ids of the nodes that
    [mapping_key] sends to it, each once and at least one; a key that is
    not there is the key of no node. *)
Theorem get_unique_id_mapping_spec (manifest : Manifest) (key : CatalogKey) :
  match get_unique_id_mapping manifest !! key with
  | Some unique_ids =>
      unique_ids ≠ [] ∧ NoDup unique_ids ∧
      ∀ unique_id, unique_id ∈ unique_ids ↔
        ∃ node, manifest !! unique_id = Some node ∧ mapping_key node = key
  | None =>
      ∀ unique_id node, manifest !! unique_id = Some node →
                        mapping_key node ≠ key
  end.
Proof.
  pose proof (ident_map_fold_lookup (map_to_list manifest) ∅ key) as Hids.
  pose proof (ident_map_fold_None (map_to_list manifest) ∅ key) as Hnone.
  fold (get_unique_id_mapping manifest) in Hids, Hnone.
  rewrite lookup_empty in Hids, Hnone. simpl in Hids.
  assert (Hin : ∀ u, u ∈ (filter (λ item : string * CompileResultNode,
                                     mapping_key item.2 = key)
                                 (map_to_list manifest)).*1 ↔
                     ∃ node, manifest !! u = Some node ∧ mapping_key node = key).
  { intros u. rewrite list_elem_of_fmap. split.
    - intros ([u' node] & -> & [Hkey Hitem%elem_of_map_to_list]%list_elem_of_filter).
      by exists node.
    - intros (node & Hnode & Hkey). exists (u, node). split; [done|].
      apply list_elem_of_filter. split; [done|]. by apply elem_of_map_to_list. }
  destruct (get_unique_id_mapping manifest !! key) as [unique_ids|] eqn:Hlook.
  - simpl in Hids. subst unique_ids. split_and!.
    + intros Hnil.
      assert (Exists (λ item : string * CompileResultNode,
                        ¬ mapping_key item.2 ≠ key) (map_to_list manifest))
        as ([u node] & Hitem & Hkey)%Exists_exists.
      { apply not_Forall_Exists; [apply _|]. intros Hall.
        discriminate (proj2 Hnone (conj eq_refl Hall)). }
      simpl in Hkey. apply dec_stable in Hkey.
      assert (u ∈ (filter (λ item : string * CompileResultNode,
                     mapping_key item.2 = key) (map_to_list manifest)).*1) as Hu.
      { apply Hin. exists node. split; [|done]. by apply elem_of_map_to_list. }
      rewrite Hnil in Hu. by apply elem_of_nil in Hu.
    + apply NoDup_filter_fst, NoDup_fst_map_to_list.
    + apply Hin.
  - intros u node Hnode Hkey.
    destruct (proj1 Hnone eq_refl) as [_ Hall].
    rewrite Forall_forall in Hall.
    apply (Hall (u, node)); [|done]. by apply elem_of_map_to_list.
Qed.

(** ** The result of make_unique_id_map *)

(** X15: each entry of the result of [make_unique_id_map] carries as its
    unique id the identifier it is under, which is a unique id of the
    manifest; so the result has no more entries than the manifest has
    nodes, and entries of the catalog that no node points at are in the
    result under no identifier. *)
Theorem make_unique_id_map_result
    (self : Catalog) (manifest : Manifest) (nodes : gmap string CatalogTable.t) :
  make_unique_id_map self manifest = Ok nodes →
  (∀ unique_id table,
     nodes !! unique_id = Some table →
     CatalogTable.unique_id table = Some unique_id ∧
     is_Some (manifest !! unique_id)) ∧
  dom nodes ⊆ dom manifest ∧
  (size nodes ≤ size manifest)%nat ∧
  (∀ key table,
     self !! key = Some table →
     (∀ unique_id node, manifest !! unique_id = Some node →
                        mapping_key node ≠ CatalogTable.key table) →
     ∀ unique_id, nodes !! unique_id ≠
                  Some (CatalogTable.replace_unique_id table unique_id)).
Proof.
  intros Hres. pose proof (make_unique_id_map_cases self manifest) as Hcases.
  rewrite Hres in Hcases. destruct Hcases as [_ Hlook].
  assert (Hentry : ∀ u t, nodes !! u = Some t →
            CatalogTable.unique_id t = Some u ∧ is_Some (manifest !! u)).
  { intros u t (key & table & node & _ & Hnode & _ & ->)%Hlook. eauto. }
  assert (Hdom : dom nodes ⊆ dom manifest).
  { intros u [t Hu]%elem_of_dom. apply elem_of_dom. by eapply Hentry. }
  split_and!; [done..| |].
  - rewrite <-!size_dom. by apply subseteq_size.
  - intros key table Hself Hnone u Hu.
    apply Hlook in Hu as (key' & table' & node & _ & Hnode & Hkey & Heq).
    apply (Hnone u node Hnode). rewrite Hkey.
    unfold CatalogTable.key. by injection Heq as -> _ _.
Qed.

Lemma make_unique_id_map_result_witness :
  make_unique_id_map catalog_upper manifest_two =
    Ok (<["source.a" := CatalogTable.replace_unique_id
            (entry "D" "S" "T" [int_column "id" 0]) "source.a"]>
        {["model.a" := CatalogTable.replace_unique_id
            (entry "D" "S" "T" [int_column "id" 0]) "model.a"]}) ∧
  (size (<["source.a" := CatalogTable.replace_unique_id
            (entry "D" "S" "T" [int_column "id" 0]) "source.a"]>
        ({["model.a" := CatalogTable.replace_unique_id
            (entry "D" "S" "T" [int_column "id" 0]) "model.a"]}
         : gmap string CatalogTable.t)) ≤ size manifest_two)%nat.
Proof.
  assert (H : make_unique_id_map catalog_upper manifest_two =
    Ok (<["source.a" := CatalogTable.replace_unique_id
            (entry "D" "S" "T" [int_column "id" 0]) "source.a"]>
        {["model.a" := CatalogTable.replace_unique_id
            (entry "D" "S" "T" [int_column "id" 0]) "model.a"]})) by by_compute.
  split; [exact H|].
  exact (proj1 (proj2 (proj2 (make_unique_id_map_result _ _ _ H)))).
Defined.

(** X16: with an empty catalog, and with an empty manifest,
    [make_unique_id_map] returns the empty result; it does not raise. *)
Theorem make_unique_id_map_empty (self : Catalog) (manifest : Manifest) :
  make_unique_id_map ∅ manifest = Ok ∅ ∧
  make_unique_id_map self ∅ = Ok ∅.
Proof.
  split.
  - unfold make_unique_id_map. by rewrite map_to_list_empty.
  - pose proof (make_unique_id_map_cases self ∅) as Hcases.
    destruct (make_unique_id_map self ∅) as [nodes|e].
    + destruct Hcases as [_ Hlook]. f_equal. apply map_empty. intros u.
      destruct (nodes !! u) as [t|] eqn:Hu; [|done].
      apply Hlook in Hu as (? & ? & ? & _ & Hnode & _). by rewrite lookup_empty in Hnode.
    + destruct Hcases as [_ (u & _ & [node Hnode])]. by rewrite lookup_empty in Hnode.
Qed.

(** ** What of a row is read, and which keys a catalog has *)

(** The keys of a row in one of the three families. *)
Definition read_part (data : PrimitiveDict) : PrimitiveDict :=
  filter (λ kv, Text.startswith "table_" kv.1 = true ∨
                Text.startswith "stats:" kv.1 = true ∨
                Text.startswith "column_" kv.1 = true) data.

Lemma read_part_lookup data prefix k :
  prefix = "table_" ∨ prefix = "stats:" ∨ prefix = "column_" →
  read_part data !! (prefix +:+ k) = data !! (prefix +:+ k).
Proof.
  intros Hprefix.
  assert (Text.startswith "table_" (prefix +:+ k) = true ∨
          Text.startswith "stats:" (prefix +:+ k) = true ∨
          Text.startswith "column_" (prefix +:+ k) = true) as Hstart.
  { destruct Hprefix as [->|[->| ->]];
      [left|right; left|right; right]; apply Text.startswith_app. }
  unfold read_part. rewrite map_lookup_filter.
  destruct (data !! (prefix +:+ k)) as [v|]; [|done].
  apply option_guard_True. exact Hstart.
Qed.

(** X17: of a row that has its three identity fields, [get_table] and
    [add_column] read the keys that start with [table_], [stats:] or
    [column_], and no other: another row that agrees with it on these keys
    has the same effect on any catalog, the same exception included.  (A
    row without an identity field is left out: the message of its
    compilation error renders the whole row.) *)
Theorem add_column_ignores_other_keys
    (data1 data2 : PrimitiveDict) (self : Catalog) (key : CatalogKey) :
  read_part data1 = read_part data2 →
  catalog_key data1 = Ok key →
  catalog_key data2 = Ok key ∧
  get_table data1 self = get_table data2 self ∧
  add_column data1 self = add_column data2 self.
Proof.
  intros Hpart Hkey1.
  assert (Hsame : ∀ prefix k,
            prefix = "table_" ∨ prefix = "stats:" ∨ prefix = "column_" →
            data1 !! (prefix +:+ k) = data2 !! (prefix +:+ k)).
  { intros prefix k Hprefix.
    rewrite <-(read_part_lookup data1), <-(read_part_lookup data2) by done.
    by rewrite Hpart. }
  assert (Hstrip : ∀ prefix,
            prefix = "table_" ∨ prefix = "stats:" ∨ prefix = "column_" →
            get_stripped_prefix data1 prefix = get_stripped_prefix data2 prefix).
  { intros prefix Hprefix. apply map_eq. intros k.
    rewrite !get_stripped_prefix_lookup. by apply Hsame. }
  assert (Hkey : catalog_key data1 = catalog_key data2).
  { unfold catalog_key, getitem.
    change "table_database" with ("table_" +:+ "database").
    change "table_schema" with ("table_" +:+ "schema").
    change "table_name" with ("table_" +:+ "name").
    by rewrite !(Hsame "table_") by auto. }
  assert (Hbuild : build_catalog_table data1 = build_catalog_table data2).
  { unfold build_catalog_table. by rewrite !Hstrip by auto. }
  assert (Hcol : column_of data1 = column_of data2).
  { unfold column_of. by rewrite !Hstrip by auto. }
  assert (Hget : get_table data1 self = get_table data2 self).
  { unfold get_table. by rewrite Hkey, Hbuild. }
  split; [congruence|]. split; [done|]. unfold add_column. by rewrite Hget, Hcol.
Qed.

Definition row_with_more : PrimitiveDict :=
  <["fetched_at" := PStr "today"]> (<["owner" := PNone]> row_second).

Lemma add_column_ignores_other_keys_witness :
  read_part row_with_more = read_part row_second ∧
  row_with_more ≠ row_second ∧
  catalog_key row_with_more = Ok ("D", "S", "T") ∧
  catalog_key row_second = Ok ("D", "S", "T") ∧
  get_table row_with_more catalog_upper = get_table row_second catalog_upper ∧
  add_column row_with_more catalog_upper = add_column row_second catalog_upper.
Proof.
  assert (H : read_part row_with_more = read_part row_second) by by_compute.
  assert (Hkey : catalog_key row_with_more = Ok ("D", "S", "T")) by by_compute.
  split; [exact H|]. split; [by_compute|]. split; [exact Hkey|].
  exact (add_column_ignores_other_keys _ _ catalog_upper _ H Hkey).
Defined.

(** X18: the constructor on a sequence of rows followed by another is the
    loop on the second sequence run from the catalog of the first; when
    the first raises, the whole raises the same. *)
Theorem Catalog_init_app (xs ys : list PrimitiveDict) :
  Catalog_init (xs ++ ys) =
    match Catalog_init xs with
    | Raise e => Raise e
    | Ok self =>
        match add_columns ys self with
        | (Raise e, _) => Raise e
        | (Ok _, self') => Ok self'
        end
    end.
Proof.
  unfold Catalog_init. rewrite add_columns_app.
  by destruct (add_columns xs ∅) as [[[]|e] self].
Qed.

Lemma size_list_to_set_bound (l : list CatalogKey) :
  (size (list_to_set l : gset CatalogKey) ≤ length l)%nat.
Proof.
  induction l as [|x l IH].
  - change (size (∅ : gset CatalogKey) ≤ 0)%nat. by rewrite size_empty.
  - rewrite list_to_set_cons, size_union_alt, size_singleton. simpl.
    assert (size (list_to_set l ∖ {[x]} : gset CatalogKey) ≤
            size (list_to_set l : gset CatalogKey))%nat
      by (apply subseteq_size; set_solver).
    lia.
Qed.

Lemma omap_length_bound {A B} (f : A → option B) (l : list A) :
  (length (omap f l) ≤ length l)%nat.
Proof.
  induction l as [|x l IH]; csimpl; [done|]. destruct (f x); csimpl; lia.
Qed.

(** X19: the keys of a catalog that the constructor returns are the keys
    of the rows, one entry for each key that some row has; so the catalog
    has no more entries than there are rows. *)
Theorem Catalog_init_keys (rows : list PrimitiveDict) (self : Catalog) :
  Catalog_init rows = Ok self →
  (∀ key, is_Some (self !! key) ↔ ∃ r, r ∈ rows ∧ catalog_key r = Ok key) ∧
  (size self ≤ length rows)%nat.
Proof.
  unfold Catalog_init.
  destruct (add_columns rows ∅) as [[[]|e] self1] eqn:Hloop; [|done].
  intros [= ->].
  assert (Hkeys : ∀ key, is_Some (self !! key) ↔
                         ∃ r, r ∈ rows ∧ catalog_key r = Ok key).
  { intros key. pose proof (add_columns_entry key _ _ _ Hloop) as Hentry.
    rewrite lookup_empty in Hentry. split.
    - intros [table Hself].
      destruct Hentry as [[Hnone _]|
        (before & r & after & _ & _ & -> & _ & Hkey & _)]; [congruence|].
      exists r. split; [|done]. set_solver.
    - intros (r & Hr & Hkey).
      destruct Hentry as [[_ Hall]|
        (_ & _ & _ & _ & table & _ & _ & _ & _ & Hself & _)]; [|eauto].
      rewrite Forall_forall in Hall. by destruct (Hall r Hr). }
  split; [done|].
  assert (Hsub : dom self ⊆
            list_to_set (omap (λ r, match catalog_key r with
                                    | Ok key => Some key
                                    | Raise _ => None
                                    end) rows)).
  { intros key [r [Hr Hkey]]%elem_of_dom%Hkeys.
    apply elem_of_list_to_set, list_elem_of_omap. exists r. by rewrite Hkey. }
  apply subseteq_size in Hsub. rewrite size_dom in Hsub.
  etrans; [exact Hsub|]. etrans; [apply size_list_to_set_bound|].
  apply omap_length_bound.
Qed.

Lemma Catalog_init_keys_witness :
  Catalog_init [row_lower; row_upper; row_second] =
    Ok (<[("d", "s", "t") := entry "d" "s" "t" [int_column "id" 0]]>
          catalog_two_columns) ∧
  (size (<[("d", "s", "t") := entry "d" "s" "t" [int_column "id" 0]]>
           catalog_two_columns) ≤ length [row_lower; row_upper; row_second])%nat.
Proof.
  assert (H : Catalog_init [row_lower; row_upper; row_second] =
    Ok (<[("d", "s", "t") := entry "d" "s" "t" [int_column "id" 0]]>
          catalog_two_columns)) by by_compute.
  split; [exact H|]. exact (proj2 (Catalog_init_keys _ _ H)).
Defined.
